(** * Broker variables: JSON-schema generation, defaulting and validation

    A shallow embedding of package [broker] (the file that declares
    [BrokerVariable], [ToSchema], [fieldNameToLabel], [ApplyDefaults],
    [ValidateVariables], [ValidateVariablesAgainstSchema] and
    [CreateJsonSchema]) of the GCP service broker, with the properties its
    specification states about it.

    Go maps are finite maps ([gmap]), Go strings are byte strings
    ([string], a list of 8-bit [ascii] bytes), [interface{}] is the
    inductive type [Value].  The Go standard library and the third-party
    packages the code calls are modelled next to the code that calls
    them. *)

From Stdlib Require Import ZArith NArith Ascii String List.
From stdpp Require Import base option gmap strings list sorting pretty.

Local Open Scope string_scope.
Set Warnings "-register-all,-clear-no-such-hyp".

(** ** Go strings: bytes, runes and UTF-8 decoding *)

(** A rune is a Unicode code point ([int32] in Go; decoding only yields
    non-negative ones). *)
Definition rune : Type := N.

(** [utf8.RuneError], U+FFFD. *)
Definition RuneError : rune := 65533%N.

Definition byteN (b : ascii) : N := N_of_ascii b.

(** [lo <= b <= hi], on bytes. *)
Definition byteIn (lo hi : N) (b : ascii) : bool :=
  ((lo <=? byteN b) && (byteN b <=? hi))%N.

(** Package [utf8], table [first] with [acceptRanges]: for a leading byte
    [x >= 0x80], the length of the sequence it starts and the range its
    second byte has to lie in; [None] for a byte that starts nothing. *)
Definition firstInfo (x : N) : option (N * (N * N)) :=
  (if x <? 194 then None                         (* 0x80-0xC1 *)
   else if x <? 224 then Some (2, (128, 191))    (* 0xC2-0xDF *)
   else if x =? 224 then Some (3, (160, 191))    (* 0xE0 *)
   else if x <? 237 then Some (3, (128, 191))    (* 0xE1-0xEC *)
   else if x =? 237 then Some (3, (128, 159))    (* 0xED *)
   else if x <? 240 then Some (3, (128, 191))    (* 0xEE-0xEF *)
   else if x =? 240 then Some (4, (144, 191))    (* 0xF0 *)
   else if x <? 244 then Some (4, (128, 191))    (* 0xF1-0xF3 *)
   else if x =? 244 then Some (4, (128, 143))    (* 0xF4 *)
   else None)%N.                                 (* 0xF5-0xFF *)

(** [utf8.DecodeRuneInString]: the first rune of [s] and its width in
    bytes; an invalid or truncated sequence is [RuneError] of width 1. *)
Definition DecodeRuneInString (s : string) : rune * nat :=
  match s with
  | EmptyString => (RuneError, 0)
  | String s0 t =>
    let x := byteN s0 in
    if (x <? 128)%N then (x, 1)
    else
      match firstInfo x with
      | None => (RuneError, 1)
      | Some (sz, (lo, hi)) =>
        match t with
        | EmptyString => (RuneError, 1)
        | String s1 t1 =>
          if negb (byteIn lo hi s1) then (RuneError, 1)
          else if (sz <=? 2)%N then
            (N.lor (N.shiftl (N.land x 31) 6) (N.land (byteN s1) 63), 2)
          else
            match t1 with
            | EmptyString => (RuneError, 1)
            | String s2 t2 =>
              if negb (byteIn 128 191 s2) then (RuneError, 1)
              else if (sz <=? 3)%N then
                (N.lor (N.shiftl (N.land x 15) 12)
                   (N.lor (N.shiftl (N.land (byteN s1) 63) 6)
                      (N.land (byteN s2) 63)), 3)
              else
                match t2 with
                | EmptyString => (RuneError, 1)
                | String s3 _ =>
                  if negb (byteIn 128 191 s3) then (RuneError, 1)
                  else
                    (N.lor (N.shiftl (N.land x 7) 18)
                       (N.lor (N.shiftl (N.land (byteN s1) 63) 12)
                          (N.lor (N.shiftl (N.land (byteN s2) 63) 6)
                             (N.land (byteN s3) 63))), 4)
                end
            end
        end
      end
  end.

(** [unicode.IsSpace]: in Latin-1 the eight listed code points, beyond it
    the [White_Space] table. *)
Definition IsSpace (r : rune) : bool :=
  (if r <=? 255 then
     (r =? 9) || (r =? 10) || (r =? 11) || (r =? 12) || (r =? 13)
     || (r =? 32) || (r =? 133) || (r =? 160)
   else
     (r =? 5760) || ((8192 <=? r) && (r <=? 8202))
     || ((8232 <=? r) && (r <=? 8233)) || (r =? 8239) || (r =? 8287)
     || (r =? 12288))%N.

(** [for _, r := range s]: the runes of [s] in order.  [skip] counts the
    continuation bytes of the rune decoded last that are still ahead. *)
Fixpoint runesFrom (skip : nat) (s : string) : list rune :=
  match s with
  | EmptyString => []
  | String _ t =>
    match skip with
    | S k => runesFrom k t
    | O => let '(r, w) := DecodeRuneInString s in r :: runesFrom (pred w) t
    end
  end.

Definition runes (s : string) : list rune := runesFrom 0 s.

(** [strings.FieldsFunc s f]: the maximal substrings of [s] none of whose
    runes satisfies [f].  [cur] is the field being read ([None] between
    fields); the bytes of a rune go where its first byte went. *)
Definition closeField (cur : option string) (rest : list string) : list string :=
  match cur with
  | Some w => w :: rest
  | None => rest
  end.

Definition growField (cur : option string) (b : ascii) : option string :=
  Some (from_option id "" cur ++ String b "").

Fixpoint fieldsFrom (f : rune → bool) (skip : nat) (cur : option string)
    (s : string) : list string :=
  match s with
  | EmptyString => closeField cur []
  | String b t =>
    match skip with
    | S k =>
      fieldsFrom f k (match cur with Some _ => growField cur b | None => None end) t
    | O =>
      let '(r, w) := DecodeRuneInString s in
      if f r then closeField cur (fieldsFrom f (pred w) None t)
      else fieldsFrom f (pred w) (growField cur b) t
    end
  end.

Definition FieldsFunc (s : string) (f : rune → bool) : list string :=
  fieldsFrom f 0 None s.

(** [strings.Join]. *)
Definition Join (elems : list string) (sep : string) : string :=
  String.concat sep elems.

Definition isLowerByte (b : ascii) : bool := byteIn 97 122 b.

(** [strings.ToUpper] of the one-byte string [b]: an ASCII lower-case
    letter is shifted to upper case, any other ASCII byte is kept.  A byte
    from [0x80] up is not a rune on its own; it decodes as [RuneError],
    which [unicode.ToUpper] maps to itself, and [strings.Map] of the
    toolchain the repository pins (go1.12) returns its argument when no
    rune changes. *)
Definition ToUpperByte (b : ascii) : string :=
  if isLowerByte b then String (ascii_of_N (byteN b - 32)) "" else String b "".

(** ** [fieldNameToLabel] *)

Definition acronyms : gmap string string :=
  <["id" := "ID"]> (<["uri" := "URI"]> (<["url" := "URL"]>
    (<["gb" := "GB"]> (<["jdbc" := "JDBC"]> ∅)))).

(** The separator test handed to [FieldsFunc]. *)
Definition isSeparator (c : rune) : bool :=
  (IsSpace c || (c =? 45) || (c =? 95) || (c =? 46))%N.

(** The body of the loop over [components].  [c[:1]] would panic on an
    empty component; [FieldsFunc] returns none (lemma
    [FieldsFunc_nonempty] below), so that branch is never taken. *)
Definition labelComponent (c : string) : string :=
  match acronyms !! c with
  | Some replace => replace
  | None =>
    match c with
    | String b rest => ToUpperByte b ++ rest
    | EmptyString => ""
    end
  end.

Definition fieldNameToLabel (fieldName : string) : string :=
  let components := FieldsFunc fieldName isSeparator in
  Join (map labelComponent components) " ".

(** ** Values, descriptors and the pieces of the Go runtime they need *)

(** The address of an object in the store (see [Store] below). *)
Definition loc : Type := positive.

(** [interface{}]: the dynamic values that occur in descriptors, payloads
    and schema documents.  [VJsonType] is a value of the named type
    [JsonType], [VSlice] a [[]interface{}], [VStrings] a [[]string].  A
    [map[string]interface{}] is either given by its content, [VMap], or
    by the address of the map object, [VRef]; the functions below never
    look inside either. *)
Inductive Value : Type :=
  | VNil
  | VBool (b : bool)
  | VInt (z : Z)
  | VString (s : string)
  | VJsonType (t : string)
  | VSlice (l : list Value)
  | VStrings (l : list string)
  | VMap (m : gmap string Value)
  | VRef (l : loc).

(** [v != nil] for an interface value. *)
Definition notNil (v : Value) : bool :=
  match v with
  | VNil => false
  | _ => true
  end.

(** The keys of [Enum], a [map[interface{}]string]: comparable values. *)
Inductive EnumKey : Type :=
  | KBool (b : bool)
  | KInt (z : Z)
  | KString (s : string).

#[global] Instance EnumKey_eq_dec : EqDecision EnumKey.
Proof. solve_decision. Defined.

#[global] Instance EnumKey_countable : Countable EnumKey.
Proof.
  refine (inj_countable'
    (λ k, match k with
          | KBool b => inl b
          | KInt z => inr (inl z)
          | KString s => inr (inr s)
          end)
    (λ x, match x with
          | inl b => KBool b
          | inr (inl z) => KInt z
          | inr (inr s) => KString s
          end) _).
  by intros [].
Defined.

(** A key seen as an [interface{}] value. *)
Definition valueOfKey (k : EnumKey) : Value :=
  match k with
  | KBool b => VBool b
  | KInt z => VInt z
  | KString s => VString s
  end.

(** [fmt.Sprintf("%v", k)]. *)
Definition Sprintv (k : EnumKey) : string :=
  match k with
  | KBool true => "true"
  | KBool false => "false"
  | KInt z => pretty z
  | KString s => s
  end.

Definition JsonType : Type := string.
Definition JsonTypeString : JsonType := "string".
Definition JsonTypeNumeric : JsonType := "number".
Definition JsonTypeInteger : JsonType := "integer".
Definition JsonTypeBoolean : JsonType := "boolean".

Record BrokerVariable : Type := {
  Required : bool;
  FieldName : string;
  Type_ : JsonType;
  Details : string;
  Default : Value;
  Enum : gmap EnumKey string;
  Constraints : gmap string Value;
}.

(** Two elements stand in order for [less] when the second is not less
    than the first. *)
Definition inOrder {A : Type} (less : A → A → bool) (a b : A) : Prop :=
  less b a = false.

#[global] Instance inOrder_dec {A : Type} (less : A → A → bool) :
  RelDecision (inOrder less).
Proof. intros a b. unfold inOrder. apply _. Defined.

(** What the code relies on from the Go runtime and [sort]: the order in
    which [for ... range] visits a map is unspecified, and [sort.Slice] is
    any (not necessarily stable) sort.  [less] is the comparison of two
    elements; [sort.Slice] orders correctly when it is a strict weak
    order. *)
Class GoRuntime : Type := {
  rangeMap : ∀ (K : Type) `{Countable K} (V : Type), gmap K V → list (K * V);
  rangeMap_perm :
    ∀ (K : Type) `{Countable K} (V : Type) (m : gmap K V),
      rangeMap K V m ≡ₚ map_to_list m;
  sortSlice : ∀ (A : Type), (A → A → bool) → list A → list A;
  sortSlice_perm :
    ∀ (A : Type) (less : A → A → bool) (x : list A), sortSlice A less x ≡ₚ x;
  sortSlice_sorted :
    ∀ (A : Type) (less : A → A → bool) (x : list A),
      (∀ a, less a a = false) →
      (∀ a b c, less a b = true → less b c = true → less a c = true) →
      (∀ a b c, less a b = false → less b c = false → less a c = false) →
      StronglySorted (inOrder less) (sortSlice A less x);
}.

Arguments rangeMap {_ K _ _ V} m.
Arguments sortSlice {_ A} less x.

(** Modelled from the spec: the keyword constants of package [validation]
    ([KeyTitle], [KeyEnum], [KeyDescription], [KeyType], [KeyDefault]),
    which the specification lists as the per-field keys [title], [enum],
    [description], [type] and [default]. *)
Definition KeyTitle : string := "title".
Definition KeyEnum : string := "enum".
Definition KeyDescription : string := "description".
Definition KeyType : string := "type".
Definition KeyDefault : string := "default".

(** ** [ToSchema] *)

Section ToSchema.
Context `{RT : GoRuntime}.

(** [m[k] = v]. *)
Definition assign (m : gmap string Value) (kv : string * Value) : gmap string Value :=
  <[kv.1 := kv.2]> m.

(** The comparison handed to [sort.Slice], on the elements at the two
    indices. *)
Definition enumLess (a b : EnumKey) : bool := String.ltb (Sprintv a) (Sprintv b).

(** The block under [if len(bv.Enum) > 0]: the keys in range order,
    appended one by one, then sorted. *)
Definition enumeration (bv : BrokerVariable) : list EnumKey :=
  let enumeration := foldl (λ acc kv, (acc ++ [kv.1])%list) [] (rangeMap (Enum bv)) in
  sortSlice enumLess enumeration.

Definition ToSchema (bv : BrokerVariable) : gmap string Value :=
  let schema : gmap string Value := ∅ in
  let schema :=
    if decide (FieldName bv ≠ "")
    then <[KeyTitle := VString (fieldNameToLabel (FieldName bv))]> schema
    else schema in
  let schema := foldl assign schema (rangeMap (Constraints bv)) in
  let schema :=
    if decide (0 < size (Enum bv))
    then <[KeyEnum := VSlice (valueOfKey <$> enumeration bv)]> schema
    else schema in
  let schema :=
    if decide (Details bv ≠ "")
    then <[KeyDescription := VString (Details bv)]> schema
    else schema in
  let schema :=
    if decide (Type_ bv ≠ "")
    then <[KeyType := VJsonType (Type_ bv)]> schema
    else schema in
  let schema :=
    if notNil (Default bv)
    then <[KeyDefault := Default bv]> schema
    else schema in
  schema.
End ToSchema.

(** ** [CreateJsonSchema] *)

(** Modelled from the spec: [utils.StringSet] with [NewStringSet], [Add],
    [IsEmpty] and [ToSlice], which the specification describes as a set of
    names (unique, order-irrelevant for storage) listed without duplicates
    in some stable order. *)
Definition StringSet : Type := gset string.
Definition NewStringSet : StringSet := ∅.
Definition StringSet_Add (set : StringSet) (str : string) : StringSet := {[str]} ∪ set.
Definition StringSet_IsEmpty (set : StringSet) : bool := bool_decide (set = ∅).
Definition StringSet_ToSlice (set : StringSet) : list string := elements set.

Section CreateJsonSchema.
Context `{RT : GoRuntime}.

(** One turn of the loop over [schemaVariables], on the pair of locals
    [(required, properties)]. *)
Definition collect (acc : StringSet * gmap string Value) (variable : BrokerVariable)
    : StringSet * gmap string Value :=
  let '(required, properties) := acc in
  let properties := <[FieldName variable := VMap (ToSchema variable)]> properties in
  let required :=
    if Required variable then StringSet_Add required (FieldName variable)
    else required in
  (required, properties).

Definition CreateJsonSchema (schemaVariables : list BrokerVariable) : gmap string Value :=
  let '(required, properties) := foldl collect (NewStringSet, ∅) schemaVariables in
  let schema : gmap string Value :=
    <["$schema" := VString "http://json-schema.org/draft-04/schema#"]>
      (<["type" := VString "object"]>
         (<["properties" := VMap properties]> ∅)) in
  if negb (StringSet_IsEmpty required)
  then <["required" := VStrings (StringSet_ToSlice required)]> schema
  else schema.

End CreateJsonSchema.

(** ** [ApplyDefaults] *)

(** The body of the loop: the map [parameters] is updated in place; here
    the updated map is returned. *)
Definition applyDefault (parameters : gmap string Value) (v : BrokerVariable)
    : gmap string Value :=
  let ok := bool_decide (is_Some (parameters !! FieldName v)) in
  if negb ok && notNil (Default v)
  then <[FieldName v := Default v]> parameters
  else parameters.

Definition ApplyDefaults (parameters : gmap string Value)
    (variables : list BrokerVariable) : gmap string Value :=
  foldl applyDefault parameters variables.

(** ** Descriptor validation *)

(** Modelled from the spec: the error kinds of package [validation]; a
    [FieldError] names the kind and the descriptor field it is about. *)
Inductive ErrorKind : Type :=
  | BlankField
  | InvalidSchemaType.

Record FieldError : Type := {
  Kind : ErrorKind;
  Path : string;
}.

#[global] Instance ErrorKind_eq_dec : EqDecision ErrorKind.
Proof. solve_decision. Defined.

#[global] Instance FieldError_eq_dec : EqDecision FieldError.
Proof. solve_decision. Defined.

(** Modelled from the spec: a value is blank when it is empty or
    whitespace only. *)
Definition isBlank (value : string) : bool := forallb IsSpace (runes value).

(** Modelled from the spec: [validation.ErrIfBlank], which fails with
    [BlankField] when the value is empty or whitespace. *)
Definition ErrIfBlank (value field : string) : option FieldError :=
  if isBlank value then Some {| Kind := BlankField; Path := field |} else None.

(** Modelled from the spec: [validation.ErrIfNotJSONSchemaType], which
    fails with [InvalidSchemaType] when the value is not one of the four
    recognised primitive types. *)
Definition isJSONSchemaType (value : string) : bool :=
  bool_decide (value ∈ [JsonTypeString; JsonTypeNumeric; JsonTypeInteger; JsonTypeBoolean]).

Definition ErrIfNotJSONSchemaType (value field : string) : option FieldError :=
  if isJSONSchemaType value then None
  else Some {| Kind := InvalidSchemaType; Path := field |}.

(** Modelled from the spec: the method [Also] of [FieldError], which collects every
    error among its arguments next to those of the receiver; the nil
    [FieldError] pointer is the empty collection. *)
Definition Also (errs : list FieldError) (more : list (option FieldError))
    : list FieldError :=
  (errs ++ omap id more)%list.

(** [Validate]: the named result [errs] is nil when [Also] is called. *)
Definition Validate (bv : BrokerVariable) : list FieldError :=
  let errs : list FieldError := [] in
  Also errs
    [ ErrIfBlank (FieldName bv) "field_name";
      ErrIfNotJSONSchemaType (Type_ bv) "type";
      ErrIfBlank (Details bv) "details" ].

(** ** Payload validation *)

(** [multierror.Error]: the collected errors (each made by [errors.New],
    so a message) and the function that renders them. *)
Record multierror_Error : Type := {
  Errors : list string;
  ErrorFormat : list string → string;
}.

(** [errors.New]. *)
Definition errors_New (text : string) : string := text.

(** [multierror.Append err e] for an [e] that is not itself a
    [multierror.Error]. *)
Definition multierror_Append (err : multierror_Error) (e : string) : multierror_Error :=
  {| Errors := (Errors err ++ [e])%list; ErrorFormat := ErrorFormat err |}.

(** The method [Error] of [multierror.Error]. *)
Definition multierror_String (err : multierror_Error) : string :=
  ErrorFormat err (Errors err).

(** The collaborators of the validator: the JSON-schema engine
    ([gojsonschema.Validate] on two Go loaders, which answers with a
    processing error or with the list of violations, [ResultError_String]
    being a violation's [String()]), and [utils.SingleLineErrorFormatter],
    whose source is not part of the package. *)
Class Collaborators : Type := {
  EngineError : Type;
  ResultError : Type;
  ResultError_String : ResultError → string;
  gojsonschema_Validate :
    gmap string Value → gmap string Value → EngineError + list ResultError;
  SingleLineErrorFormatter : list string → string;
}.

(** The [error] values [ValidateVariablesAgainstSchema] returns. *)
Inductive error `{Collaborators} : Type :=
  | EngineFailure (err : EngineError)
  | Aggregate (allErrors : multierror_Error).

Section Validation.
Context `{RT : GoRuntime} `{CO : Collaborators}.

(** [None] is the nil error. *)
Definition ValidateVariablesAgainstSchema (parameters schema : gmap string Value)
    : option error :=
  match gojsonschema_Validate schema parameters with
  | inl err => Some (EngineFailure err)
  | inr resultErrors =>
    if decide (length resultErrors = 0) then None
    else
      let allErrors :=
        {| Errors := []; ErrorFormat := SingleLineErrorFormatter |} in
      let allErrors :=
        foldl (λ acc r, multierror_Append acc (errors_New (ResultError_String r)))
          allErrors resultErrors in
      Some (Aggregate allErrors)
  end.

Definition ValidateVariables (parameters : gmap string Value)
    (variables : list BrokerVariable) : option error :=
  let schema := CreateJsonSchema variables in
  ValidateVariablesAgainstSchema parameters schema.

End Validation.

(** * The same code over a store

    Go maps are references, and [Validate] and [ToSchema] take the
    descriptor by pointer.  To speak of what the code writes and what it
    leaves alone, this part gives the code again with the maps and the
    descriptor structs as objects of a store, every read and write
    explicit. *)

Module Store.

(** The struct [BrokerVariable] as it lies in memory: [Enum] and
    [Constraints] hold the addresses of the two maps. *)
Record Descriptor : Type := {
  Required : bool;
  FieldName : string;
  Type_ : JsonType;
  Details : string;
  Default : Value;
  Enum : loc;
  Constraints : loc;
}.

Inductive Obj : Type :=
  | OStruct (d : Descriptor)
  | OEnum (m : gmap EnumKey string)
  | OMap (m : gmap string Value).

Abbreviation heap := (gmap loc Obj).

(** A computation reads and writes the store and returns a result, or
    fails ([None]) when an address does not hold what is expected of it:
    Go's type discipline rules that out, a store taken at random does
    not. *)
Definition M (A : Type) : Type := heap → option (A * heap).

Definition ret {A : Type} (x : A) : M A := λ h, Some (x, h).

Definition bind {A B : Type} (c : M A) (k : A → M B) : M B :=
  λ h, match c h with
       | Some (x, h') => k x h'
       | None => None
       end.

Notation "'let*' x := c 'in' k" := (bind c (λ x, k))
  (at level 10, x name, c at level 100, k at level 200,
   format "'[v' 'let*'  x  :=  c  'in' '/' k ']'").
Notation "c ;; k" := (bind c (λ _, k))
  (at level 100, k at level 200, right associativity).

(** [make(...)], a map or struct literal, a local whose address is
    taken: a new object at an unused address. *)
Definition alloc (o : Obj) : M loc :=
  λ h, let l := fresh (dom h) in Some (l, <[l := o]> h).

(** [*bv]. *)
Definition loadStruct (bv : loc) : M Descriptor :=
  λ h, match h !! bv with
       | Some (OStruct d) => Some (d, h)
       | _ => None
       end.

(** The content of a map, for [len], a lookup or [range]. *)
Definition loadMap (m : loc) : M (gmap string Value) :=
  λ h, match h !! m with
       | Some (OMap c) => Some (c, h)
       | _ => None
       end.

Definition loadEnum (m : loc) : M (gmap EnumKey string) :=
  λ h, match h !! m with
       | Some (OEnum c) => Some (c, h)
       | _ => None
       end.

(** [m[k] = v]. *)
Definition mapAssign (m : loc) (k : string) (v : Value) : M unit :=
  λ h, match h !! m with
       | Some (OMap c) => Some (tt, <[m := OMap (<[k := v]> c)]> h)
       | _ => None
       end.

(** [if cond { body }]. *)
Definition when (cond : bool) (body : M unit) : M unit :=
  if cond then body else ret tt.

(** [for _, x := range xs { body }] over a slice. *)
Fixpoint forEach {A : Type} (xs : list A) (body : A → M unit) : M unit :=
  match xs with
  | [] => ret tt
  | x :: xs => body x;; forEach xs body
  end.

(** [Validate], by pointer. *)
Definition Validate (bv : loc) : M (list FieldError) :=
  let* d := loadStruct bv in
  let errs : list FieldError := [] in
  ret (Also errs
         [ ErrIfBlank (FieldName d) "field_name";
           ErrIfNotJSONSchemaType (Type_ d) "type";
           ErrIfBlank (Details d) "details" ]).

Section WithRuntime.
Context `{RT : GoRuntime}.

(** [ToSchema], by pointer; the result is the address of the new map.
    The struct is read once: between the reads of its fields the code
    writes to [schema] only. *)
Definition ToSchema (bv : loc) : M loc :=
  let* schema := alloc (OMap ∅) in
  let* d := loadStruct bv in
  when (bool_decide (FieldName d ≠ ""))
    (mapAssign schema KeyTitle (VString (fieldNameToLabel (FieldName d))));;
  let* constraints := loadMap (Constraints d) in
  forEach (rangeMap constraints) (λ kv, mapAssign schema kv.1 kv.2);;
  let* enum := loadEnum (Enum d) in
  when (bool_decide (0 < size enum))
    (let enumeration := foldl (λ acc kv, (acc ++ [kv.1])%list) [] (rangeMap enum) in
     let enumeration := sortSlice enumLess enumeration in
     mapAssign schema KeyEnum (VSlice (valueOfKey <$> enumeration)));;
  when (bool_decide (Details d ≠ ""))
    (mapAssign schema KeyDescription (VString (Details d)));;
  when (bool_decide (Type_ d ≠ ""))
    (mapAssign schema KeyType (VJsonType (Type_ d)));;
  when (notNil (Default d))
    (mapAssign schema KeyDefault (Default d));;
  ret schema.

(** [CreateJsonSchema].  [variable] is a copy of the element, so
    [variable.ToSchema()] is handed the address of a new struct.  The set
    [required] is local and threaded through the loop. *)
Definition collect (properties : loc) (required : StringSet) (v : Descriptor)
    : M StringSet :=
  let* variable := alloc (OStruct v) in
  let* fragment := ToSchema variable in
  let* d := loadStruct variable in
  mapAssign properties (FieldName d) (VRef fragment);;
  ret (if Required d then StringSet_Add required (FieldName d) else required).

Fixpoint collectAll (properties : loc) (required : StringSet)
    (schemaVariables : list Descriptor) : M StringSet :=
  match schemaVariables with
  | [] => ret required
  | v :: vs =>
    let* required := collect properties required v in
    collectAll properties required vs
  end.

Definition CreateJsonSchema (schemaVariables : list Descriptor) : M loc :=
  let required := NewStringSet in
  let* properties := alloc (OMap ∅) in
  let* required := collectAll properties required schemaVariables in
  let* schema :=
    alloc (OMap (<["$schema" := VString "http://json-schema.org/draft-04/schema#"]>
                   (<["type" := VString "object"]>
                      (<["properties" := VRef properties]> ∅)))) in
  when (negb (StringSet_IsEmpty required))
    (mapAssign schema "required" (VStrings (StringSet_ToSlice required)));;
  ret schema.

End WithRuntime.

(** [ApplyDefaults]: the payload is written in place. *)
Definition ApplyDefaults (parameters : loc) (variables : list Descriptor) : M unit :=
  forEach variables (λ v,
    let* content := loadMap parameters in
    let ok := bool_decide (is_Some (content !! FieldName v)) in
    when (negb ok && notNil (Default v))
      (mapAssign parameters (FieldName v) (Default v))).

(** What a Go loader reads from a value: the maps behind the references,
    [depth] references deep. *)
Fixpoint view (depth : nat) (h : heap) (v : Value) : Value :=
  match depth with
  | O => v
  | S depth =>
    match v with
    | VRef l =>
      match h !! l with
      | Some (OMap c) => VMap (view depth h <$> c)
      | _ => v
      end
    | _ => v
    end
  end.

(** [gojsonschema.NewGoLoader(m)], read when the engine runs. *)
Definition NewGoLoader (m : loc) : M (gmap string Value) :=
  let* c := loadMap m in
  λ h, Some (view (size h) h <$> c, h).

Section WithCollaborators.
Context `{RT : GoRuntime} `{CO : Collaborators}.

(** The engine reads the two maps through its loaders; the rest of the
    function has no map in hand. *)
Definition ValidateVariablesAgainstSchema (parameters schema : loc)
    : M (option error) :=
  let* schemaLoader := NewGoLoader schema in
  let* documentLoader := NewGoLoader parameters in
  match gojsonschema_Validate schemaLoader documentLoader with
  | inl err => ret (Some (EngineFailure err))
  | inr resultErrors =>
    if decide (length resultErrors = 0) then ret None
    else
      let allErrors :=
        {| Errors := []; ErrorFormat := SingleLineErrorFormatter |} in
      let allErrors :=
        foldl (λ acc r, multierror_Append acc (errors_New (ResultError_String r)))
          allErrors resultErrors in
      ret (Some (Aggregate allErrors))
  end.

Definition ValidateVariables (parameters : loc) (variables : list Descriptor)
    : M (option error) :=
  let* schema := CreateJsonSchema variables in
  ValidateVariablesAgainstSchema parameters schema.

End WithCollaborators.

End Store.

(** * The vocabulary of the properties

    The notions the statements below are written in: what the
    specification calls a word, the acronym table, the order of the
    assignments, the last descriptor of a name, and the like; then a
    runtime and some descriptors to evaluate the code on. *)

(** ** Field names *)

(** The string of the given bytes. *)
Definition str (bs : list N) : string := foldr (λ b s, String (ascii_of_N b) s) "" bs.

(** The bytes of a Go string. *)
Fixpoint bytes (s : string) : list ascii :=
  match s with
  | EmptyString => []
  | String b t => b :: bytes t
  end.

(** An ASCII byte that is no separator, and one that is. *)
Definition wordByte (b : ascii) : Prop :=
  (byteN b < 128)%N ∧ isSeparator (byteN b) = false.

Definition separatorByte (b : ascii) : Prop :=
  (byteN b < 128)%N ∧ isSeparator (byteN b) = true.

(** A word: a non-empty string of ASCII bytes none of which separates.
    A separator run: a non-empty string of ASCII separators. *)
Definition isWord (w : string) : Prop := w ≠ "" ∧ Forall wordByte (bytes w).
Definition isSeparatorRun (p : string) : Prop := p ≠ "" ∧ Forall separatorByte (bytes p).

(** The table as the specification lists it. *)
Definition acronymTable : list (string * string) :=
  [("id", "ID"); ("uri", "URI"); ("url", "URL"); ("gb", "GB"); ("jdbc", "JDBC")].

(** Upper-casing one byte: the letters [a] to [z] move to [A] to [Z]; any
    other byte stays. *)
Definition upperByte (b : ascii) : ascii :=
  if isLowerByte b then ascii_of_N (byteN b - 32) else b.

(** The first byte upper-cased, the rest as it is. *)
Definition capitalizeFirst (c : string) : string :=
  match c with
  | String b rest => String (upperByte b) rest
  | EmptyString => ""
  end.

(** The next [n] bytes exist and are no ASCII bytes. *)
Fixpoint highPrefix (n : nat) (s : string) : Prop :=
  match n with
  | O => True
  | S k =>
    match s with
    | String b t => (128 ≤ byteN b)%N ∧ highPrefix k t
    | EmptyString => False
    end
  end.

(** A string without an ASCII separator among its bytes. *)
Definition separatorFree (c : string) : Prop :=
  Forall (λ b, ¬ separatorByte b) (bytes c).

(** A string all of whose runes are no separators. *)
Definition separatorless (c : string) : Prop :=
  Forall (λ r, isSeparator r = false) (runes c).

(** [p] is a stretch of whole runes at the front of [s], none of which
    [f] holds of; [skip] bytes of a rune begun before are still ahead. *)
Fixpoint fieldPrefix (f : rune → bool) (skip : nat) (p s : string) : Prop :=
  match p with
  | EmptyString => skip = 0
  | String b p' =>
    match s with
    | EmptyString => False
    | String b' t =>
      b = b' ∧
      match skip with
      | S k => fieldPrefix f k p' t
      | O =>
        f (DecodeRuneInString s).1 = false
        ∧ fieldPrefix f (pred (DecodeRuneInString s).2) p' t
      end
    end
  end.

(** The field read so far, with [c] added. *)
Definition extendField (cur : option string) (c : string) : option string :=
  if decide (c = "") then cur else Some (from_option id "" cur ++ c).

(** A string that is empty or starts with an ASCII byte. *)
Definition asciiHead (q : string) : Prop :=
  match q with
  | String b _ => (byteN b < 128)%N
  | EmptyString => True
  end.

(** The bytes of the components, with one byte after each for what
    separates it from the next. *)
Definition spread (cs : list string) : nat :=
  foldr (λ c n, S (String.length c + n)) 0 cs.

(** ** Fragments *)

Section FragmentVocabulary.
Context `{RT : GoRuntime}.

(** The assignments the specification lists, each present under the
    condition the specification gives for it; [cs] is the list of the
    [Constraints] entries in the order they are visited. *)
Definition titleAssignment (bv : BrokerVariable) : list (string * Value) :=
  if decide (FieldName bv ≠ "")
  then [(KeyTitle, VString (fieldNameToLabel (FieldName bv)))] else [].

Definition enumAssignment (bv : BrokerVariable) : list (string * Value) :=
  if decide (0 < size (Enum bv))
  then [(KeyEnum, VSlice (valueOfKey <$> enumeration bv))] else [].

Definition descriptionAssignment (bv : BrokerVariable) : list (string * Value) :=
  if decide (Details bv ≠ "") then [(KeyDescription, VString (Details bv))] else [].

Definition typeAssignment (bv : BrokerVariable) : list (string * Value) :=
  if decide (Type_ bv ≠ "") then [(KeyType, VJsonType (Type_ bv))] else [].

Definition defaultAssignment (bv : BrokerVariable) : list (string * Value) :=
  if notNil (Default bv) then [(KeyDefault, Default bv)] else [].

Definition assignmentsInOrder (bv : BrokerVariable) (cs : list (string * Value))
    : list (string * Value) :=
  (titleAssignment bv ++ cs ++ enumAssignment bv ++ descriptionAssignment bv
     ++ typeAssignment bv ++ defaultAssignment bv)%list.

End FragmentVocabulary.

(** Ascending by the string form. *)
Definition sprintLe (a b : EnumKey) : Prop :=
  String.leb (Sprintv a) (Sprintv b) = true.

(** The keys outside which [ToSchema] writes nothing of its own. *)
Definition generatedKeys : list string :=
  [KeyTitle; KeyEnum; KeyDescription; KeyType; KeyDefault].

(** ** Documents *)

(** The last descriptor of the list that bears the name. *)
Definition lastNamed (name : string) (vs : list BrokerVariable) : option BrokerVariable :=
  last (filter (λ v, FieldName v = name) vs).

(** The names of the descriptors marked required. *)
Definition requiredNames (vs : list BrokerVariable) : gset string :=
  list_to_set (FieldName <$> filter (λ v, Required v = true) vs).

Definition draft04 : string := "http://json-schema.org/draft-04/schema#".

Section DocumentVocabulary.
Context `{RT : GoRuntime}.

(** The properties of the document, as a map. *)
Definition propertiesOf (vs : list BrokerVariable) : gmap string Value :=
  foldl (λ p v, <[FieldName v := VMap (ToSchema v)]> p) ∅ vs.

End DocumentVocabulary.

(** The keys a document can have. *)
Definition documentKeys : list string := ["$schema"; "type"; "properties"; "required"].

(** ** Defaults *)

(** The first descriptor of the list that bears the name and has a
    default. *)
Definition firstDefault (name : string) (vs : list BrokerVariable) : option BrokerVariable :=
  head (filter (λ v, FieldName v = name ∧ notNil (Default v) = true) vs).

(** ** Errors *)

(** The three errors [Validate] can report. *)
Definition blankFieldName : FieldError := {| Kind := BlankField; Path := "field_name" |}.
Definition invalidType : FieldError := {| Kind := InvalidSchemaType; Path := "type" |}.
Definition blankDetails : FieldError := {| Kind := BlankField; Path := "details" |}.

Definition recognisedTypes : list string := ["string"; "number"; "integer"; "boolean"].

(** A message without a line break. *)
Definition singleLine (s : string) : Prop :=
  Forall (λ b, byteN b ≠ 10%N ∧ byteN b ≠ 13%N) (bytes s).

(** ** The store *)

(** A computation keeps the objects at the addresses [F]. *)
Definition keeps {A : Type} (F : gset loc) (c : Store.M A) : Prop :=
  ∀ h r h', F ⊆ dom h → c h = Some (r, h') → ∀ l, l ∈ F → h' !! l = h !! l.

(** The descriptor with its two maps read from the store. *)
Definition pureOf (d : Store.Descriptor) (e : gmap EnumKey string)
    (c : gmap string Value) : BrokerVariable := {|
  Required := Store.Required d;
  FieldName := Store.FieldName d;
  Type_ := Store.Type_ d;
  Details := Store.Details d;
  Default := Store.Default d;
  Enum := e;
  Constraints := c;
|}.

Definition content (h : Store.heap) (d : Store.Descriptor) : option BrokerVariable :=
  match h !! Store.Enum d, h !! Store.Constraints d with
  | Some (Store.OEnum e), Some (Store.OMap c) => Some (pureOf d e c)
  | _, _ => None
  end.


(** ** A reference runtime *)

(** Merging sorts by any [less] that [sort.Slice] accepts. *)
Lemma merge_sort_less_sorted (A : Type) (less : A → A → bool) (x : list A) :
  (∀ a, less a a = false) →
  (∀ a b c, less a b = true → less b c = true → less a c = true) →
  (∀ a b c, less a b = false → less b c = false → less a c = false) →
  StronglySorted (inOrder less) (merge_sort (inOrder less) x).
Proof.
  intros Hirr Htr Hneg.
  apply StronglySorted_merge_sort.
  - intros a b c Hab Hbc. by apply (Hneg c b a).
  - intros a b.
    destruct (less b a) eqn:Hba; [|by left].
    destruct (less a b) eqn:Hab; [|by right].
    pose proof (Htr a b a Hab Hba) as Haa. by rewrite Hirr in Haa.
Qed.

(** The runtime that visits a map in the order of [map_to_list] and sorts
    by merging.  It shows that [GoRuntime] is inhabited, and evaluates the
    examples below. *)
Definition refRuntime : GoRuntime := {|
  rangeMap K _ _ V m := map_to_list m;
  rangeMap_perm K _ _ V m := reflexivity (map_to_list m);
  sortSlice A less x := merge_sort (inOrder less) x;
  sortSlice_perm A less x := merge_sort_Permutation (inOrder less) x;
  sortSlice_sorted := merge_sort_less_sorted;
|}.

(** ** A second runtime *)

(** Exchanging the first two neighbours neither of which is less than the
    other. *)
Fixpoint swapTie {A : Type} (less : A → A → bool) (l : list A) : list A :=
  match l with
  | a :: t =>
    match t with
    | b :: t' => if less a b then a :: swapTie less t else b :: a :: t'
    | [] => l
    end
  | [] => []
  end.

Lemma swapTie_perm {A : Type} (less : A → A → bool) (l : list A) :
  swapTie less l ≡ₚ l.
Proof.
  induction l as [|a t IH]; [done|].
  destruct t as [|b t']; [done|].
  change (swapTie less (a :: b :: t'))
    with (if less a b then a :: swapTie less (b :: t') else b :: a :: t').
  destruct (less a b).
  - by rewrite IH.
  - apply perm_swap.
Qed.

Lemma swapTie_sorted {A : Type} (less : A → A → bool) (l : list A) :
  StronglySorted (inOrder less) l → StronglySorted (inOrder less) (swapTie less l).
Proof.
  induction l as [|a t IH]; [done|].
  destruct t as [|b t']; [done|].
  change (swapTie less (a :: b :: t'))
    with (if less a b then a :: swapTie less (b :: t') else b :: a :: t').
  intros Hs. apply StronglySorted_inv in Hs as [Ht Ha].
  destruct (less a b) eqn:Hab.
  - constructor; [by apply IH|]. by rewrite swapTie_perm.
  - apply StronglySorted_inv in Ht as [Ht' Hb].
    apply Forall_cons in Ha as [_ Ha].
    constructor; [by constructor|]. by constructor.
Qed.

(** The runtime that visits a map as [refRuntime] does, and whose sort
    exchanges two neighbours of the merged list that compare alike:
    [sort.Slice] is not stable, so this order is as good as the other. *)
Definition tieRuntime : GoRuntime := {|
  rangeMap K _ _ V m := map_to_list m;
  rangeMap_perm K _ _ V m := reflexivity (map_to_list m);
  sortSlice A less x := swapTie less (merge_sort (inOrder less) x);
  sortSlice_perm A less x :=
    transitivity (swapTie_perm less _) (merge_sort_Permutation (inOrder less) x);
  sortSlice_sorted A less x Hirr Htr Hneg :=
    swapTie_sorted less _ (merge_sort_less_sorted A less x Hirr Htr Hneg);
|}.

(** ** Sample descriptors *)

(** No Enum, and an enum among the constraints. *)
Definition enumInConstraints : BrokerVariable := {|
  Required := false;
  FieldName := "region";
  Type_ := JsonTypeString;
  Details := "The region.";
  Default := VNil;
  Enum := ∅;
  Constraints := {[ "enum" := VSlice [VString "us"; VString "eu"] ]};
|}.

(** Integer keys, whose string forms sort differently from the numbers,
    and a title among the constraints. *)
Definition sizes : BrokerVariable := {|
  Required := true;
  FieldName := "disk_gb";
  Type_ := JsonTypeInteger;
  Details := "Disk size.";
  Default := VInt 10;
  Enum := {[ KInt 9 := "small"; KInt 10 := "medium"; KInt 100 := "large" ]};
  Constraints := {[ "minimum" := VInt 1; "title" := VString "Disk" ]};
|}.

(** Two descriptors of one name, and a third with a default. *)
Definition sizeFirst : BrokerVariable := {|
  Required := true;
  FieldName := "size";
  Type_ := JsonTypeInteger;
  Details := "Size in GB";
  Default := VNil;
  Enum := ∅;
  Constraints := ∅;
|}.

Definition sizeSecond : BrokerVariable := {|
  Required := false;
  FieldName := "size";
  Type_ := JsonTypeString;
  Details := "T-shirt size";
  Default := VNil;
  Enum := ∅;
  Constraints := ∅;
|}.

Definition sizeDefault : BrokerVariable := {|
  Required := true;
  FieldName := "size";
  Type_ := JsonTypeInteger;
  Details := "Size in GB";
  Default := VInt 10;
  Enum := ∅;
  Constraints := ∅;
|}.

(** A descriptor struct whose maps lie at the two addresses, and a store
    with an empty payload at 1, the maps of the descriptor at 2 and 3 and
    the descriptor at 4. *)
Definition sizeAt (enum constraints : loc) : Store.Descriptor := {|
  Store.Required := true;
  Store.FieldName := "size";
  Store.Type_ := JsonTypeInteger;
  Store.Details := "Size in GB";
  Store.Default := VInt 10;
  Store.Enum := enum;
  Store.Constraints := constraints;
|}.

Definition sampleStore : Store.heap :=
  {[ 1%positive := Store.OMap ∅;
     2%positive := Store.OEnum ∅;
     3%positive := Store.OMap {[ "minimum" := VInt 1 ]};
     4%positive := Store.OStruct (sizeAt 2%positive 3%positive) ]}.

(** The descriptor [sizes] with other friendly names. *)
Definition sizesTerse : BrokerVariable := {|
  Required := true;
  FieldName := "disk_gb";
  Type_ := JsonTypeInteger;
  Details := "Disk size.";
  Default := VInt 10;
  Enum := {[ KInt 9 := "S"; KInt 10 := "M"; KInt 100 := "L" ]};
  Constraints := {[ "minimum" := VInt 1; "title" := VString "Disk" ]};
|}.


(** * Properties *)

(** ** Splitting a field name *)

(** Decoding: two, three and four bytes; an overlong form, a surrogate,
    a code point beyond the last, a cut sequence and a lone continuation
    byte. *)
Example DecodeRuneInString_cases :
  DecodeRuneInString (str [195%N; 169%N]) = (233%N, 2)
  ∧ DecodeRuneInString (str [226%N; 130%N; 172%N; 97%N]) = (8364%N, 3)
  ∧ DecodeRuneInString (str [240%N; 159%N; 152%N; 128%N]) = (128512%N, 4)
  ∧ DecodeRuneInString (str [192%N; 128%N]) = (RuneError, 1)
  ∧ DecodeRuneInString (str [237%N; 160%N; 128%N]) = (RuneError, 1)
  ∧ DecodeRuneInString (str [244%N; 144%N; 128%N; 128%N]) = (RuneError, 1)
  ∧ DecodeRuneInString (str [226%N; 130%N]) = (RuneError, 1)
  ∧ DecodeRuneInString (str [128%N]) = (RuneError, 1)
  ∧ runes (str [97%N; 226%N; 128%N; 131%N; 98%N]) = [97%N; 8195%N; 98%N].
Proof. split_and!; vm_compute; reflexivity. Qed.

Lemma Decode_ascii (b : ascii) (t : string) :
  (byteN b < 128)%N → DecodeRuneInString (String b t) = (byteN b, 1).
Proof. intros Hb. simpl. by apply N.ltb_lt in Hb as ->. Qed.

Lemma append_cons (x : ascii) (a b : string) : String x a ++ b = String x (a ++ b).
Proof. reflexivity. Qed.

Lemma append_assoc (a b c : string) : (a ++ b) ++ c = a ++ (b ++ c).
Proof. induction a as [|x a IH]; [done|]. rewrite !append_cons. by f_equal. Qed.

Lemma append_empty_r (a : string) : a ++ "" = a.
Proof. induction a as [|x a IH]; [done|]. rewrite append_cons. by f_equal. Qed.

Section Fields.
Context (f : rune → bool).

(** No field is empty, so [c[:1]] never panics. *)
Lemma fieldsFrom_nonempty (skip : nat) (cur : option string) (s : string) :
  cur ≠ Some "" → Forall (λ c, c ≠ "") (fieldsFrom f skip cur s).
Proof.
  assert (∀ cur b, growField cur b ≠ Some "") as Hgrow.
  { intros c b [=H]. by destruct (from_option id "" c). }
  revert skip cur. induction s as [|b t IH]; intros skip cur Hcur.
  - destruct cur as [w|]; simpl; [|done]. apply Forall_cons. split; [congruence|done].
  - cbn [fieldsFrom]. destruct skip as [|k].
    + destruct (DecodeRuneInString (String b t)) as [r w]. destruct (f r).
      * destruct cur as [c|]; simpl.
        -- apply Forall_cons. split; [congruence|]. by apply IH.
        -- by apply IH.
      * by apply IH.
    + apply IH. destruct cur; [apply Hgrow|done].
Qed.

Lemma FieldsFunc_nonempty (s : string) : Forall (λ c, c ≠ "") (FieldsFunc s f).
Proof. by apply fieldsFrom_nonempty. Qed.

(** A string of separators only has no field. *)
Lemma fieldsFrom_separators (skip : nat) (s : string) :
  Forall (λ r, f r = true) (runesFrom skip s) → fieldsFrom f skip None s = [].
Proof.
  revert skip. induction s as [|b t IH]; intros skip Hall; [done|].
  cbn [fieldsFrom runesFrom] in *. destruct skip as [|k].
  - destruct (DecodeRuneInString (String b t)) as [r w].
    apply Forall_cons in Hall as [-> Hall]. simpl. by apply IH.
  - by apply IH.
Qed.

End Fields.

(** Reading a word extends the current field by it. *)
Lemma fieldsFrom_word (cur : option string) (w s : string) :
  Forall wordByte (bytes w) →
  fieldsFrom isSeparator 0 cur (w ++ s) =
    fieldsFrom isSeparator 0
      (if decide (w = "") then cur else Some (from_option id "" cur ++ w)) s.
Proof.
  revert cur. induction w as [|b w IH]; intros cur Hw; [done|].
  apply Forall_cons in Hw as [[Hb Hsep] Hw].
  rewrite append_cons.
  cbn [fieldsFrom]. rewrite Decode_ascii, Hsep by done. cbn [pred].
  rewrite IH by done. unfold growField. simpl.
  destruct (decide (w = "")) as [->|_]; [done|].
  by rewrite append_assoc.
Qed.

(** Leading separators are dropped. *)
Lemma fieldsFrom_separator_run (p s : string) :
  Forall separatorByte (bytes p) →
  fieldsFrom isSeparator 0 None (p ++ s) = fieldsFrom isSeparator 0 None s.
Proof.
  induction p as [|b p IH]; intros Hp; [done|].
  apply Forall_cons in Hp as [[Hb Hsep] Hp].
  rewrite append_cons.
  cbn [fieldsFrom]. rewrite Decode_ascii, Hsep by done. simpl. by apply IH.
Qed.

(** A word in front of a separator run, or at the end, is a field. *)
Lemma FieldsFunc_word_run (w p s : string) :
  isWord w → isSeparatorRun p →
  FieldsFunc (w ++ p ++ s) isSeparator = w :: FieldsFunc s isSeparator.
Proof.
  intros [Hne Hw] [Hpne Hp]. unfold FieldsFunc.
  rewrite fieldsFrom_word by done.
  destruct (decide (w = "")); [done|]. simpl.
  destruct p as [|b p]; [done|].
  apply Forall_cons in Hp as [[Hb Hsep] Hp].
  rewrite append_cons.
  cbn [fieldsFrom]. rewrite Decode_ascii, Hsep by done. simpl.
  by rewrite fieldsFrom_separator_run.
Qed.

Lemma FieldsFunc_word (w : string) :
  isWord w → FieldsFunc w isSeparator = [w].
Proof.
  intros [Hne Hw]. unfold FieldsFunc.
  rewrite <- (append_empty_r w) at 1. rewrite fieldsFrom_word by done.
  by destruct (decide (w = "")).
Qed.

(** Words joined by a separator run are split into the words again. *)
Lemma FieldsFunc_Join (ws : list string) (p : string) :
  Forall isWord ws → isSeparatorRun p →
  FieldsFunc (Join ws p) isSeparator = ws.
Proof.
  intros Hws Hp. unfold Join.
  induction Hws as [|w ws Hw Hws IH]; [done|].
  destruct ws as [|w' ws].
  - by apply FieldsFunc_word.
  - change (String.concat p (w :: w' :: ws))
      with (w ++ p ++ String.concat p (w' :: ws)).
    rewrite FieldsFunc_word_run by done. by rewrite IH.
Qed.

(** ** Acronyms and capitals *)

Lemma acronyms_table : acronyms = list_to_map acronymTable.
Proof. reflexivity. Qed.

Lemma acronyms_lookup (c : string) :
  acronyms !! c =
    if decide (c = "id") then Some "ID"
    else if decide (c = "uri") then Some "URI"
    else if decide (c = "url") then Some "URL"
    else if decide (c = "gb") then Some "GB"
    else if decide (c = "jdbc") then Some "JDBC"
    else None.
Proof.
  unfold acronyms. rewrite !lookup_insert, lookup_empty.
  repeat (destruct (decide (_ = c)) as [<-|?]; [done|]).
  repeat (destruct (decide (c = _)) as [->|?]; [done|]).
  done.
Qed.

Lemma labelComponent_acronym (c canonical : string) :
  (c, canonical) ∈ acronymTable → labelComponent c = canonical.
Proof.
  unfold acronymTable. rewrite !elem_of_cons, elem_of_nil.
  intros H. unfold labelComponent.
  destruct_or!; simplify_eq; try done.
Qed.

Lemma labelComponent_other (c : string) :
  c ∉ acronymTable.*1 → labelComponent c = capitalizeFirst c.
Proof.
  intros Hc. unfold labelComponent. rewrite acronyms_lookup.
  repeat (destruct (decide (c = _)) as [->|?];
    [exfalso; apply Hc; unfold acronymTable; simpl; set_solver|]).
  destruct c as [|b rest]; [done|].
  unfold ToUpperByte, capitalizeFirst, upperByte. by destruct (isLowerByte b).
Qed.

(** C4, as the code has it.  Each whole component is looked up in the
    acronym table exactly as written, case included: a component that is
    one of id, uri, url, gb, jdbc is replaced by the canonical acronym, and
    any other component, a differently cased or a longer one included,
    only has its first byte upper-cased.  So ID and JDBC come out
    unchanged, and Url stays Url. *)
Theorem fieldNameToLabel_acronyms :
  (∀ s, fieldNameToLabel s = Join (map labelComponent (FieldsFunc s isSeparator)) " ")
  ∧ (∀ c canonical, (c, canonical) ∈ acronymTable → labelComponent c = canonical)
  ∧ (∀ c, c ∉ acronymTable.*1 → labelComponent c = capitalizeFirst c)
  ∧ (∀ c canonical p s,
       (c, canonical) ∈ acronymTable → isSeparatorRun p →
       fieldNameToLabel (c ++ p ++ s) =
         Join (canonical :: map labelComponent (FieldsFunc s isSeparator)) " ")
  ∧ fieldNameToLabel "ID" = "ID"
  ∧ fieldNameToLabel "JDBC" = "JDBC"
  ∧ fieldNameToLabel "Url" = "Url"
  ∧ fieldNameToLabel "Id" = "Id"
  ∧ fieldNameToLabel "idx" = "Idx"
  ∧ fieldNameToLabel "grid-uris" = "Grid Uris".
Proof.
  split_and!; [done| | | |vm_compute; reflexivity..].
  - apply labelComponent_acronym.
  - apply labelComponent_other.
  - intros c canonical p s Hc Hp. unfold fieldNameToLabel.
    rewrite FieldsFunc_word_run; [|clear p Hp s|done].
    + simpl. by rewrite (labelComponent_acronym c canonical).
    + unfold acronymTable in Hc. rewrite !elem_of_cons, elem_of_nil in Hc.
      destruct_or!; simplify_eq; try done;
        (split; [done|]); repeat constructor; vm_compute; reflexivity.
Qed.

(** C4 as stated fails: the component Url is not replaced by URL. *)
Lemma fieldNameToLabel_Url_kept :
  fieldNameToLabel "Url" = "Url" ∧ fieldNameToLabel "Url" ≠ "URL".
Proof. split; by vm_compute. Qed.

(** C7. The three labels of the specification; a name of separators only
    has the empty label; a component outside the acronym table has its
    first byte upper-cased and the rest kept; the labelled components are
    joined by one space, whatever separated them. *)
Theorem fieldNameToLabel_examples :
  fieldNameToLabel "instance-id" = "Instance ID"
  ∧ fieldNameToLabel "jdbc_url" = "JDBC URL"
  ∧ fieldNameToLabel "" = ""
  ∧ (∀ s, Forall (λ r, isSeparator r = true) (runes s) → fieldNameToLabel s = "")
  ∧ (∀ s, fieldNameToLabel s = Join (map labelComponent (FieldsFunc s isSeparator)) " ")
  ∧ (∀ s, Forall (λ c, c ≠ "") (FieldsFunc s isSeparator))
  ∧ (∀ b rest,
       String b rest ∉ acronymTable.*1 →
       labelComponent (String b rest) = String (upperByte b) rest)
  ∧ (∀ b, upperByte b = if isLowerByte b then ascii_of_N (byteN b - 32) else b)
  ∧ (∀ ws p,
       Forall isWord ws → isSeparatorRun p →
       fieldNameToLabel (Join ws p) = Join (map labelComponent ws) " ").
Proof.
  split_and!; [vm_compute; reflexivity..| |done| | |done|].
  - intros s Hs. unfold fieldNameToLabel, FieldsFunc.
    by rewrite fieldsFrom_separators.
  - intros s. apply FieldsFunc_nonempty.
  - intros b rest Hc. by rewrite labelComponent_other.
  - intros ws p Hws Hp. unfold fieldNameToLabel. by rewrite FieldsFunc_Join.
Qed.

(** A no-break space (U+00A0, two bytes) next to ASCII separators. *)
Example fieldNameToLabel_unicode_space :
  fieldNameToLabel ("a " ++ String (ascii_of_N 194) (String (ascii_of_N 160) "._-b")) = "A B"
  ∧ fieldNameToLabel (String (ascii_of_N 194) (String (ascii_of_N 160) " ._-")) = "".
Proof. split; by vm_compute. Qed.

(** ** Assignments to a map *)

Lemma foldl_assign_list_to_map (m : gmap string Value) (cs : list (string * Value)) :
  NoDup cs.*1 → foldl assign m cs = list_to_map cs ∪ m.
Proof.
  revert m. induction cs as [|[k v] cs IH]; intros m Hnd; csimpl.
  - by rewrite (left_id_L ∅ (∪)).
  - apply NoDup_cons in Hnd as [Hk Hnd].
    rewrite IH by done. unfold assign; simpl.
    rewrite <- insert_union_l. symmetry.
    apply insert_union_r.
    by apply not_elem_of_list_to_map_1.
Qed.

(** A range loop that copies a map into another: the order of the visit
    does not show. *)
Lemma foldl_assign_range (m c : gmap string Value) (cs : list (string * Value)) :
  cs ≡ₚ map_to_list c → foldl assign m cs = c ∪ m.
Proof.
  intros Hp. rewrite foldl_assign_list_to_map.
  - f_equal. symmetry. by apply list_to_map_flip.
  - rewrite Hp. apply NoDup_fst_map_to_list.
Qed.

(** ** The merge order of [ToSchema] *)

Section MergeOrder.
Context `{RT : GoRuntime}.

Lemma ToSchema_assignments (bv : BrokerVariable) (cs : list (string * Value)) :
  cs ≡ₚ map_to_list (Constraints bv) →
  ToSchema bv = foldl assign ∅ (assignmentsInOrder bv cs).
Proof.
  intros Hcs. unfold ToSchema, assignmentsInOrder.
  rewrite !foldl_app.
  rewrite (foldl_assign_range _ (Constraints bv) cs) by done.
  rewrite (foldl_assign_range _ (Constraints bv) (rangeMap _))
    by apply rangeMap_perm.
  unfold titleAssignment, enumAssignment, descriptionAssignment,
    typeAssignment, defaultAssignment.
  repeat case_decide; destruct (notNil (Default bv)); reflexivity.
Qed.

(** Lookup in a map that was assigned to under a condition. *)
Lemma lookup_insert_dec `{Decision P} (k j : string) (v : Value) (m : gmap string Value) :
  (if decide P then <[k := v]> m else m) !! j =
    if decide (j = k ∧ P) then Some v else m !! j.
Proof.
  destruct (decide P) as [HP|HP]; destruct (decide (j = k ∧ P)) as [[Hj HP']|Hn];
    try done.
  - subst j. apply lookup_insert_eq.
  - apply lookup_insert_ne. intros <-. by apply Hn.
Qed.

Lemma lookup_insert_if (c : bool) (k j : string) (v : Value) (m : gmap string Value) :
  (if c then <[k := v]> m else m) !! j =
    if decide (j = k ∧ c = true) then Some v else m !! j.
Proof.
  destruct c; destruct (decide (j = k ∧ _)) as [[Hj Hc]|Hn]; try done.
  - subst j. apply lookup_insert_eq.
  - apply lookup_insert_ne. intros <-. by apply Hn.
Qed.

(** What the fragment holds under each key. *)
Lemma ToSchema_lookup (bv : BrokerVariable) (k : string) :
  ToSchema bv !! k =
    if decide (k = KeyDefault ∧ notNil (Default bv) = true) then Some (Default bv)
    else if decide (k = KeyType ∧ Type_ bv ≠ "") then Some (VJsonType (Type_ bv))
    else if decide (k = KeyDescription ∧ Details bv ≠ "") then Some (VString (Details bv))
    else if decide (k = KeyEnum ∧ 0 < size (Enum bv))
      then Some (VSlice (valueOfKey <$> enumeration bv))
    else match Constraints bv !! k with
         | Some v => Some v
         | None =>
           if decide (k = KeyTitle ∧ FieldName bv ≠ "")
           then Some (VString (fieldNameToLabel (FieldName bv)))
           else None
         end.
Proof.
  unfold ToSchema.
  rewrite (foldl_assign_range _ (Constraints bv) (rangeMap _))
    by apply rangeMap_perm.
  rewrite lookup_insert_if, !lookup_insert_dec, lookup_union.
  rewrite lookup_insert_dec, lookup_empty.
  do 4 (destruct (decide _); [reflexivity|]).
  destruct (Constraints bv !! k), (decide (k = KeyTitle ∧ _)); reflexivity.
Qed.

End MergeOrder.

Lemma notNil_true (v : Value) : notNil v = true ↔ v ≠ VNil.
Proof. destruct v; simpl; split; intros; congruence. Qed.

(** Settles a lookup in a fragment at a literal key. *)
Ltac fragment_key :=
  rewrite ToSchema_lookup;
  repeat match goal with
    | |- context [decide (?k = ?k' ∧ ?P)] =>
      destruct (decide (k = k' ∧ P)) as [[? ?]|?];
      [first [discriminate | done | congruence | tauto] | first [done | tauto | idtac]]
    end;
  try done.

Section MergeOrderClaims.
Context `{RT : GoRuntime}.

(** C1. [ToSchema] assigns title, then the entries of Constraints, then
    enum, description, type and default, a later assignment overwriting
    an earlier one to the same key: a title among the constraints
    replaces the generated title, and an enum, description, type or
    default among the constraints gives way to the generated value
    whenever that one is emitted (and stays when it is not). *)
Theorem ToSchema_merge_order (bv : BrokerVariable) :
  (∀ cs, cs ≡ₚ map_to_list (Constraints bv) →
     ToSchema bv = foldl assign ∅ (assignmentsInOrder bv cs))
  ∧ (∀ m k v w, assign (assign m (k, v)) (k, w) = assign m (k, w))
  ∧ (∀ v, Constraints bv !! KeyTitle = Some v → ToSchema bv !! KeyTitle = Some v)
  ∧ (Constraints bv !! KeyTitle = None → FieldName bv ≠ "" →
       ToSchema bv !! KeyTitle = Some (VString (fieldNameToLabel (FieldName bv))))
  ∧ (if decide (0 < size (Enum bv))
     then ToSchema bv !! KeyEnum = Some (VSlice (valueOfKey <$> enumeration bv))
     else ToSchema bv !! KeyEnum = Constraints bv !! KeyEnum)
  ∧ (if decide (Details bv ≠ "")
     then ToSchema bv !! KeyDescription = Some (VString (Details bv))
     else ToSchema bv !! KeyDescription = Constraints bv !! KeyDescription)
  ∧ (if decide (Type_ bv ≠ "")
     then ToSchema bv !! KeyType = Some (VJsonType (Type_ bv))
     else ToSchema bv !! KeyType = Constraints bv !! KeyType)
  ∧ (if notNil (Default bv)
     then ToSchema bv !! KeyDefault = Some (Default bv)
     else ToSchema bv !! KeyDefault = Constraints bv !! KeyDefault).
Proof.
  split_and!.
  - apply ToSchema_assignments.
  - intros m k v w. unfold assign; simpl. apply insert_insert_eq.
  - intros v Hv. fragment_key. by rewrite Hv.
  - intros Hc Hf. fragment_key. rewrite Hc. by case_decide; [|tauto].
  - case_decide; fragment_key; by destruct (Constraints bv !! KeyEnum).
  - case_decide; fragment_key; by destruct (Constraints bv !! KeyDescription).
  - case_decide; fragment_key; by destruct (Constraints bv !! KeyType).
  - destruct (notNil (Default bv)) eqn:Hd; fragment_key;
      by destruct (Constraints bv !! KeyDefault).
Qed.

End MergeOrderClaims.

(** ** The order of Go strings *)

Lemma ascii_compare_Eq (a b : ascii) : Ascii.compare a b = Eq → a = b.
Proof.
  unfold Ascii.compare. intros H%N.compare_eq_iff.
  by rewrite <- (ascii_N_embedding a), <- (ascii_N_embedding b), H.
Qed.

Lemma ascii_compare_refl (a : ascii) : Ascii.compare a a = Eq.
Proof. unfold Ascii.compare. apply N.compare_refl. Qed.

Lemma string_compare_refl (s : string) : String.compare s s = Eq.
Proof. induction s as [|a s IH]; simpl; [done|]. by rewrite ascii_compare_refl. Qed.

Lemma string_compare_Lt_trans (a b c : string) :
  String.compare a b = Lt → String.compare b c = Lt → String.compare a c = Lt.
Proof.
  revert b c. induction a as [|x a IH]; intros [|y b] [|z c]; simpl; try done.
  destruct (Ascii.compare x y) eqn:Hxy; try done.
  - apply ascii_compare_Eq in Hxy as ->.
    destruct (Ascii.compare y z); try done. apply IH.
  - destruct (Ascii.compare y z) eqn:Hyz; try done.
    + apply ascii_compare_Eq in Hyz as ->. by rewrite Hxy.
    + unfold Ascii.compare in *.
      intros _ _.
      assert ((N_of_ascii x ?= N_of_ascii z)%N = Lt) as ->; [|done].
      exact (N.lt_trans _ _ _ Hxy Hyz).
Qed.

Lemma ltb_leb_false (a b : string) : String.ltb b a = false ↔ String.leb a b = true.
Proof.
  unfold String.ltb, String.leb. rewrite (String.compare_antisym a b).
  by destruct (String.compare b a).
Qed.

Lemma string_ltb_irrefl (a : string) : String.ltb a a = false.
Proof. unfold String.ltb. by rewrite string_compare_refl. Qed.

Lemma string_ltb_trans (a b c : string) :
  String.ltb a b = true → String.ltb b c = true → String.ltb a c = true.
Proof.
  unfold String.ltb. intros Hab Hbc.
  rewrite (string_compare_Lt_trans a b c); [done| |].
  - by destruct (String.compare a b).
  - by destruct (String.compare b c).
Qed.

Lemma string_leb_trans (a b c : string) :
  String.leb a b = true → String.leb b c = true → String.leb a c = true.
Proof.
  unfold String.leb. intros Hab Hbc.
  destruct (String.compare a b) eqn:Eab; [|clear Hab|done].
  - by apply String.compare_eq_iff in Eab as ->.
  - destruct (String.compare b c) eqn:Ebc; [| |done].
    + apply String.compare_eq_iff in Ebc as <-. by rewrite Eab.
    + by rewrite (string_compare_Lt_trans a b c).
Qed.

Lemma string_ltb_negtrans (a b c : string) :
  String.ltb a b = false → String.ltb b c = false → String.ltb a c = false.
Proof.
  rewrite !ltb_leb_false. intros Hba Hcb. by apply (string_leb_trans c b a).
Qed.

(** ** The enumeration list *)

Section Enumeration.
Context `{RT : GoRuntime}.

Lemma foldl_append_keys {V : Type} (acc : list EnumKey) (l : list (EnumKey * V)) :
  foldl (λ acc kv, (acc ++ [kv.1])%list) acc l = (acc ++ l.*1)%list.
Proof.
  revert acc. induction l as [|kv l IH]; intros acc; csimpl.
  - by rewrite app_nil_r.
  - by rewrite IH, <- app_assoc.
Qed.

Lemma elem_of_keys {V : Type} (m : gmap EnumKey V) (k : EnumKey) :
  k ∈ (map_to_list m).*1 ↔ is_Some (m !! k).
Proof.
  rewrite list_elem_of_fmap. split.
  - intros [[k' v] [-> Hkv%elem_of_map_to_list]]. by exists v.
  - intros [v Hv]. exists (k, v). by rewrite elem_of_map_to_list.
Qed.

Lemma enumeration_keys (bv : BrokerVariable) :
  enumeration bv ≡ₚ (map_to_list (Enum bv)).*1.
Proof.
  unfold enumeration. rewrite sortSlice_perm, foldl_append_keys. simpl.
  by rewrite rangeMap_perm.
Qed.

Lemma enumeration_sorted (bv : BrokerVariable) :
  StronglySorted sprintLe (enumeration bv).
Proof.
  unfold enumeration. rewrite <- (list_fmap_id (sortSlice _ _)).
  apply (StronglySorted_fmap id (inOrder enumLess)); [|apply sortSlice_sorted].
  - intros a b. unfold inOrder, enumLess, sprintLe. apply ltb_leb_false.
  - intros a. apply string_ltb_irrefl.
  - intros a b c. apply string_ltb_trans.
  - intros a b c. apply string_ltb_negtrans.
Qed.

(** C3, as the code has it.  With a non-empty Enum the fragment holds
    under enum the list of exactly the Enum keys, ascending by string
    form.  With an empty Enum [ToSchema] writes no enum list: the
    fragment holds under enum what Constraints holds there, if anything.
    Constraints contributes its own entries only: with an empty
    Constraints the fragment has no key besides the generated ones. *)
Theorem ToSchema_enum_sorted (bv : BrokerVariable) :
  (0 < size (Enum bv) →
     ∃ ks : list EnumKey,
       ToSchema bv !! KeyEnum = Some (VSlice (valueOfKey <$> ks))
       ∧ NoDup ks
       ∧ (∀ k, k ∈ ks ↔ is_Some (Enum bv !! k))
       ∧ StronglySorted sprintLe ks)
  ∧ (Enum bv = ∅ → ToSchema bv !! KeyEnum = Constraints bv !! KeyEnum)
  ∧ (Enum bv = ∅ → Constraints bv !! KeyEnum = None → ToSchema bv !! KeyEnum = None)
  ∧ (∀ k, k ∉ generatedKeys → ToSchema bv !! k = Constraints bv !! k)
  ∧ (Constraints bv = ∅ → ∀ k, k ∉ generatedKeys → ToSchema bv !! k = None).
Proof.
  assert (∀ k, k ∉ generatedKeys → ToSchema bv !! k = Constraints bv !! k) as Hout.
  { intros k Hk. rewrite ToSchema_lookup.
    repeat match goal with
      | |- context [decide (k = ?k' ∧ ?P)] =>
        destruct (decide (k = k' ∧ P)) as [[-> _]|_];
        [exfalso; apply Hk; unfold generatedKeys; set_solver|]
      end.
    by destruct (Constraints bv !! k). }
  assert (Enum bv = ∅ → ToSchema bv !! KeyEnum = Constraints bv !! KeyEnum) as Hempty.
  { intros HE. fragment_key. rewrite HE, map_size_empty.
    destruct (decide _) as [[_ ?]|_]; [lia|].
    by destruct (Constraints bv !! KeyEnum). }
  split_and!; try done.
  - intros Hn. exists (enumeration bv). split_and!.
    + by fragment_key.
    + rewrite enumeration_keys. apply NoDup_fst_map_to_list.
    + intros k. rewrite enumeration_keys. apply elem_of_keys.
    + apply enumeration_sorted.
  - intros HE Hc. by rewrite Hempty, Hc.
  - intros Hc k Hk. by rewrite Hout, Hc, lookup_empty.
Qed.

End Enumeration.

(** C3 as stated fails: with an empty Enum and an enum among the
    constraints, the fragment has an enum key. *)
Lemma ToSchema_enum_key_without_Enum :
  Enum enumInConstraints = ∅
  ∧ ToSchema (RT := refRuntime) enumInConstraints !! KeyEnum
      = Some (VSlice [VString "us"; VString "eu"])
  ∧ ¬ (∀ (RT : GoRuntime) (bv : BrokerVariable),
         Enum bv = ∅ → ToSchema bv !! KeyEnum = None).
Proof.
  assert (ToSchema (RT := refRuntime) enumInConstraints !! KeyEnum
            = Some (VSlice [VString "us"; VString "eu"])) as Hex.
  { by vm_compute. }
  split_and!; [done|done|].
  intros Hall. by rewrite (Hall refRuntime enumInConstraints) in Hex.
Qed.

Example ToSchema_sizes :
  map (λ k, ToSchema (RT := refRuntime) sizes !! k)
      ["title"; "minimum"; "enum"; "description"; "type"; "default"]
    = [ Some (VString "Disk"); Some (VInt 1);
        Some (VSlice [VInt 10; VInt 100; VInt 9]);
        Some (VString "Disk size."); Some (VJsonType "integer");
        Some (VInt 10) ]
  ∧ size (ToSchema (RT := refRuntime) sizes) = 6.
Proof. split; vm_compute; reflexivity. Qed.

(** ** The schema document *)

Section Document.
Context `{RT : GoRuntime}.

Lemma lastNamed_cons (name : string) (v : BrokerVariable) (vs : list BrokerVariable) :
  lastNamed name (v :: vs) =
    match lastNamed name vs with
    | Some w => Some w
    | None => if decide (FieldName v = name) then Some v else None
    end.
Proof.
  unfold lastNamed. rewrite filter_cons.
  destruct (decide (FieldName v = name)); [|by destruct (last _)].
  rewrite last_cons. by destruct (last _).
Qed.

Lemma lastNamed_Some (name : string) (vs : list BrokerVariable) (v : BrokerVariable) :
  lastNamed name vs = Some v → v ∈ vs ∧ FieldName v = name.
Proof.
  unfold lastNamed. intros H%last_Some_elem_of.
  by apply list_elem_of_filter in H as [? ?].
Qed.

Lemma foldl_collect (vs : list BrokerVariable) (required : StringSet)
    (properties : gmap string Value) :
  foldl collect (required, properties) vs =
    (requiredNames vs ∪ required,
     foldl (λ p v, <[FieldName v := VMap (ToSchema v)]> p) properties vs).
Proof.
  revert required properties.
  induction vs as [|v vs IH]; intros required properties.
  - unfold requiredNames. simpl. by rewrite (left_id_L ∅ (∪)).
  - cbn [foldl]. unfold collect at 2. rewrite IH. f_equal.
    unfold requiredNames, StringSet_Add.
    destruct (Required v) eqn:Hr.
    + rewrite filter_cons_True by done. rewrite fmap_cons, list_to_set_cons.
      set_solver.
    + by rewrite filter_cons_False by (by rewrite Hr).
Qed.

Lemma properties_lookup (vs : list BrokerVariable)
    (properties : gmap string Value) (name : string) :
  foldl (λ p v, <[FieldName v := VMap (ToSchema v)]> p) properties vs !! name =
    match lastNamed name vs with
    | Some v => Some (VMap (ToSchema v))
    | None => properties !! name
    end.
Proof.
  revert properties. induction vs as [|v vs IH]; intros properties; [done|].
  cbn [foldl]. rewrite IH, lastNamed_cons.
  destruct (lastNamed name vs); [done|].
  rewrite lookup_insert. by destruct (decide (FieldName v = name)).
Qed.

Lemma elem_of_requiredNames (vs : list BrokerVariable) (name : string) :
  name ∈ requiredNames vs ↔
    ∃ v, v ∈ vs ∧ Required v = true ∧ FieldName v = name.
Proof.
  unfold requiredNames. rewrite elem_of_list_to_set, list_elem_of_fmap.
  setoid_rewrite list_elem_of_filter. naive_solver.
Qed.

Lemma CreateJsonSchema_unfold (vs : list BrokerVariable) :
  CreateJsonSchema vs =
    let schema : gmap string Value :=
      <["$schema" := VString draft04]>
        (<["type" := VString "object"]>
           (<["properties" := VMap (propertiesOf vs)]> ∅)) in
    if decide (requiredNames vs = ∅) then schema
    else <["required" := VStrings (elements (requiredNames vs))]> schema.
Proof.
  unfold CreateJsonSchema. rewrite foldl_collect.
  unfold NewStringSet, StringSet_IsEmpty, StringSet_ToSlice.
  rewrite (right_id_L ∅ (∪)). cbn zeta. fold (propertiesOf vs).
  by destruct (decide (requiredNames vs = ∅)) as [->|Hne];
    [rewrite bool_decide_eq_true_2|rewrite bool_decide_eq_false_2].
Qed.

Lemma lastNamed_app (name : string) (pre post : list BrokerVariable) (v : BrokerVariable) :
  FieldName v = name → (∀ w, w ∈ post → FieldName w ≠ name) →
  lastNamed name (pre ++ v :: post) = Some v.
Proof.
  intros Hv Hpost. unfold lastNamed.
  rewrite filter_app, filter_cons_True by done.
  replace (filter (λ w, FieldName w = name) post) with (@nil BrokerVariable).
  - by rewrite last_snoc.
  - symmetry. induction post as [|w post IH]; [done|].
    rewrite filter_cons_False by (apply Hpost; left).
    apply IH. intros u Hu. apply Hpost. by right.
Qed.

Lemma lastNamed_NoDup (vs : list BrokerVariable) (v : BrokerVariable) :
  NoDup (FieldName <$> vs) → v ∈ vs → lastNamed (FieldName v) vs = Some v.
Proof.
  intros Hnd Hv. apply list_elem_of_split in Hv as (pre & post & ->).
  apply lastNamed_app; [done|].
  intros w Hw Heq. rewrite fmap_app, fmap_cons in Hnd.
  apply NoDup_app in Hnd as (_ & _ & Hnd). apply NoDup_cons in Hnd as [Hnd _].
  apply Hnd. rewrite <- Heq. by apply list_elem_of_fmap_2.
Qed.

Lemma propertiesOf_lookup (vs : list BrokerVariable) (name : string) :
  propertiesOf vs !! name = (λ v, VMap (ToSchema v)) <$> lastNamed name vs.
Proof.
  unfold propertiesOf. rewrite properties_lookup.
  by destruct (lastNamed name vs).
Qed.

Lemma lastNamed_is_Some (vs : list BrokerVariable) (name : string) :
  is_Some (lastNamed name vs) ↔ ∃ v, v ∈ vs ∧ FieldName v = name.
Proof.
  split.
  - intros [v Hv]. exists v. by apply lastNamed_Some.
  - intros (v & Hv & Hn). induction vs as [|w vs IH]; [by apply elem_of_nil in Hv|].
    rewrite lastNamed_cons. apply elem_of_cons in Hv as [<-|Hv].
    + destruct (lastNamed name vs); [done|]. by rewrite decide_True.
    + destruct (IH Hv) as [u ->]. done.
Qed.

Lemma CreateJsonSchema_required (vs : list BrokerVariable) :
  CreateJsonSchema vs !! "required" =
    if decide (requiredNames vs = ∅) then None
    else Some (VStrings (elements (requiredNames vs))).
Proof.
  rewrite CreateJsonSchema_unfold. cbn zeta.
  destruct (decide (requiredNames vs = ∅)); [done|].
  by rewrite lookup_insert_eq.
Qed.

Lemma CreateJsonSchema_properties (vs : list BrokerVariable) :
  CreateJsonSchema vs !! "properties" = Some (VMap (propertiesOf vs)).
Proof. rewrite CreateJsonSchema_unfold. cbn zeta. by case_decide. Qed.

Lemma requiredNames_perm (vs vs' : list BrokerVariable) :
  vs ≡ₚ vs' → requiredNames vs = requiredNames vs'.
Proof.
  intros Hp. apply set_eq. intros n. rewrite !elem_of_requiredNames.
  by setoid_rewrite Hp.
Qed.

Lemma requiredNames_empty (vs : list BrokerVariable) :
  requiredNames vs = ∅ ↔ ¬ ∃ v, v ∈ vs ∧ Required v = true.
Proof.
  split.
  - intros He (v & Hv & Hr).
    assert (FieldName v ∈ requiredNames vs) as Hin
      by (apply elem_of_requiredNames; eauto).
    rewrite He in Hin. by apply not_elem_of_empty in Hin.
  - intros Hno. apply set_eq. intros n. rewrite elem_of_requiredNames.
    split; [|by intros ?%not_elem_of_empty].
    intros (v & Hv & Hr & _). exfalso. apply Hno. eauto.
Qed.

End Document.

Section DocumentClaims.
Context `{RT : GoRuntime}.

(** C5, as the code has it.  The document carries the draft-04
    identifier, type object, and properties, which maps every field name
    to the fragment of the last descriptor bearing it, hence every
    descriptor's name to its own fragment when the names are distinct;
    required is present exactly when some descriptor is required, and
    then lists the names of the required descriptors, each once, whatever
    the order of the input; the empty list gives empty properties and no
    required. *)
Theorem CreateJsonSchema_document (vs : list BrokerVariable) :
  CreateJsonSchema vs !! "$schema" = Some (VString draft04)
  ∧ CreateJsonSchema vs !! "type" = Some (VString "object")
  ∧ CreateJsonSchema vs !! "properties" = Some (VMap (propertiesOf vs))
  ∧ (∀ k, k ∉ documentKeys → CreateJsonSchema vs !! k = None)
  ∧ (∀ name, propertiesOf vs !! name = (λ v, VMap (ToSchema v)) <$> lastNamed name vs)
  ∧ (∀ name, is_Some (propertiesOf vs !! name) ↔ ∃ v, v ∈ vs ∧ FieldName v = name)
  ∧ (NoDup (FieldName <$> vs) →
       ∀ v, v ∈ vs → propertiesOf vs !! FieldName v = Some (VMap (ToSchema v)))
  ∧ (is_Some (CreateJsonSchema vs !! "required") ↔ ∃ v, v ∈ vs ∧ Required v = true)
  ∧ (∀ x, CreateJsonSchema vs !! "required" = Some x →
       ∃ names, x = VStrings names ∧ NoDup names
         ∧ ∀ n, n ∈ names ↔ ∃ v, v ∈ vs ∧ Required v = true ∧ FieldName v = n)
  ∧ (∀ vs', vs ≡ₚ vs' →
       CreateJsonSchema vs !! "required" = CreateJsonSchema vs' !! "required")
  ∧ CreateJsonSchema [] !! "properties" = Some (VMap ∅)
  ∧ CreateJsonSchema [] !! "required" = None.
Proof.
  split_and!.
  - rewrite CreateJsonSchema_unfold. cbn zeta. by case_decide.
  - rewrite CreateJsonSchema_unfold. cbn zeta. by case_decide.
  - apply CreateJsonSchema_properties.
  - intros k Hk. unfold documentKeys in Hk.
    rewrite !not_elem_of_cons in Hk. destruct Hk as (? & ? & ? & ? & _).
    rewrite CreateJsonSchema_unfold. cbn zeta.
    case_decide; by rewrite !lookup_insert_ne, lookup_empty.
  - apply propertiesOf_lookup.
  - intros name. rewrite propertiesOf_lookup, fmap_is_Some.
    apply lastNamed_is_Some.
  - intros Hnd v Hv. by rewrite propertiesOf_lookup, lastNamed_NoDup.
  - rewrite CreateJsonSchema_required.
    destruct (decide (requiredNames vs = ∅)) as [He|Hne].
    + apply requiredNames_empty in He. split; [by intros [? ?]|done].
    + split; [intros _|done].
      apply set_choose_L in Hne as [n Hn].
      apply elem_of_requiredNames in Hn as (v & Hv & Hr & _). eauto.
  - intros x. rewrite CreateJsonSchema_required.
    case_decide; [done|]. intros [= <-].
    exists (elements (requiredNames vs)). split_and!; [done|apply NoDup_elements|].
    intros n. by rewrite elem_of_elements, elem_of_requiredNames.
  - intros vs' Hp. by rewrite !CreateJsonSchema_required, (requiredNames_perm vs vs').
  - done.
  - done.
Qed.

(** C10. When descriptors share a field name, properties holds under it
    the fragment of the last of them, and required lists the name at most
    once, and does list it as soon as one of them is required. *)
Theorem CreateJsonSchema_shared_name (vs : list BrokerVariable) (name : string) :
  (∀ pre v post,
     vs = (pre ++ v :: post)%list → FieldName v = name →
     (∀ w, w ∈ post → FieldName w ≠ name) →
     ∃ properties,
       CreateJsonSchema vs !! "properties" = Some (VMap properties)
       ∧ properties !! name = Some (VMap (ToSchema v)))
  ∧ (∀ x, CreateJsonSchema vs !! "required" = Some x →
       ∃ names, x = VStrings names
         ∧ (length (filter (λ n, n = name) names) ≤ 1)%nat
         ∧ (name ∈ names ↔ ∃ v, v ∈ vs ∧ FieldName v = name ∧ Required v = true))
  ∧ ((∃ v, v ∈ vs ∧ FieldName v = name ∧ Required v = true) →
       ∃ names, CreateJsonSchema vs !! "required" = Some (VStrings names)
         ∧ name ∈ names).
Proof.
  split_and!.
  - intros pre v post -> Hv Hpost. exists (propertiesOf (pre ++ v :: post)). split.
    + apply CreateJsonSchema_properties.
    + by rewrite propertiesOf_lookup, (lastNamed_app name pre post v).
  - intros x. rewrite CreateJsonSchema_required.
    case_decide; [done|]. intros [= <-].
    exists (elements (requiredNames vs)). split_and!; [done| |].
    + pose proof (NoDup_elements (requiredNames vs)) as Hnd.
      induction Hnd as [|n names Hn Hnd IH]; [simpl; lia|].
      rewrite filter_cons. case_decide as Heq; [|by apply IH]. subst n.
      replace (filter (λ n, n = name) names) with (@nil string); [simpl; lia|].
      symmetry. clear IH Hnd. induction names as [|m names IH]; [done|].
      apply not_elem_of_cons in Hn as [Hm Hn].
      rewrite filter_cons_False by done. by apply IH.
    + rewrite elem_of_elements, elem_of_requiredNames. naive_solver.
  - intros (v & Hv & Hn & Hr). exists (elements (requiredNames vs)).
    assert (name ∈ requiredNames vs) as Hin
      by (apply elem_of_requiredNames; eauto).
    rewrite CreateJsonSchema_required. split.
    + case_decide as He; [|done]. rewrite He in Hin. by apply not_elem_of_empty in Hin.
    + by apply elem_of_elements.
Qed.

End DocumentClaims.

Example sizeFirst_description :
  ToSchema (RT := refRuntime) sizeFirst !! "description" = Some (VString "Size in GB")
  ∧ ToSchema (RT := refRuntime) sizeSecond !! "description" = Some (VString "T-shirt size").
Proof. split; vm_compute; reflexivity. Qed.

(** C5 as stated fails: of two descriptors named size, properties holds
    the fragment of the second, not the first one's. *)
Lemma CreateJsonSchema_first_fragment_lost :
  CreateJsonSchema (RT := refRuntime) [sizeFirst; sizeSecond] !! "properties"
    = Some (VMap {[ "size" := VMap (ToSchema (RT := refRuntime) sizeSecond) ]})
  ∧ ¬ (∀ (RT : GoRuntime) (vs : list BrokerVariable) (v : BrokerVariable),
         v ∈ vs →
         ∃ properties,
           CreateJsonSchema vs !! "properties" = Some (VMap properties)
           ∧ properties !! FieldName v = Some (VMap (ToSchema v))).
Proof.
  assert (CreateJsonSchema (RT := refRuntime) [sizeFirst; sizeSecond] !! "properties"
    = Some (VMap {[ "size" := VMap (ToSchema (RT := refRuntime) sizeSecond) ]})) as Hp.
  { rewrite CreateJsonSchema_properties. unfold propertiesOf. simpl.
    change (FieldName sizeFirst) with "size".
    change (FieldName sizeSecond) with "size".
    by rewrite insert_insert_eq, insert_empty. }
  split; [done|].
  intros Hall.
  destruct (Hall refRuntime [sizeFirst; sizeSecond] sizeFirst) as (properties & Hps & Hsize).
  { by left. }
  rewrite Hp in Hps. injection Hps as <-.
  change (FieldName sizeFirst) with "size" in Hsize.
  rewrite lookup_singleton_eq in Hsize.
  pose proof sizeFirst_description as [Hfirst Hsecond].
  assert (ToSchema (RT := refRuntime) sizeSecond = ToSchema (RT := refRuntime) sizeFirst)
    as Heq by congruence.
  rewrite Heq in Hsecond. congruence.
Qed.

(** ** Defaults *)

Lemma applyDefault_lookup (p : gmap string Value) (v : BrokerVariable) (k : string) :
  applyDefault p v !! k =
    match p !! k with
    | Some x => Some x
    | None =>
      if decide (FieldName v = k ∧ notNil (Default v) = true)
      then Some (Default v) else None
    end.
Proof.
  unfold applyDefault.
  destruct (p !! FieldName v) as [y|] eqn:Hv; simpl.
  - destruct (p !! k) eqn:Hk; [done|].
    case_decide as Hc; [|done]. destruct Hc as [<- _]. congruence.
  - destruct (notNil (Default v)) eqn:Hd.
    + rewrite lookup_insert. destruct (decide (FieldName v = k)) as [<-|Hne].
      * rewrite Hv. by rewrite decide_True.
      * destruct (p !! k); [done|]. by rewrite decide_False by (by intros [? ?]).
    + destruct (p !! k); [done|]. by rewrite decide_False by (by intros [? ?]).
Qed.

Lemma ApplyDefaults_lookup (p : gmap string Value) (vs : list BrokerVariable) (k : string) :
  ApplyDefaults p vs !! k =
    match p !! k with
    | Some x => Some x
    | None => Default <$> firstDefault k vs
    end.
Proof.
  unfold ApplyDefaults, firstDefault. revert p.
  induction vs as [|v vs IH]; intros p; simpl.
  - by destruct (p !! k).
  - rewrite IH, applyDefault_lookup, filter_cons.
    destruct (p !! k); [done|]. by case_decide.
Qed.

Lemma ApplyDefaults_app (p : gmap string Value) (pre post : list BrokerVariable) :
  ApplyDefaults p (pre ++ post) = ApplyDefaults (ApplyDefaults p pre) post.
Proof. apply foldl_app. Qed.

Lemma ApplyDefaults_twice (p : gmap string Value) (vs : list BrokerVariable) :
  ApplyDefaults (ApplyDefaults p vs) vs = ApplyDefaults p vs.
Proof.
  apply map_eq. intros k. rewrite (ApplyDefaults_lookup (ApplyDefaults p vs)).
  destruct (ApplyDefaults p vs !! k) eqn:Hk; [done|].
  rewrite ApplyDefaults_lookup in Hk.
  destruct (p !! k); [done|]. done.
Qed.

(** C6. [ApplyDefaults] visits the descriptors in order and sets
    [payload[FieldName] = Default] exactly at a descriptor whose name is
    absent from the payload when it is visited and whose default is not
    nil.  A key that is present keeps its value, a zero value included;
    an absent key ends up with the default of the first descriptor that
    has one for it; a second application changes nothing. *)
Theorem ApplyDefaults_spec (parameters : gmap string Value)
    (variables : list BrokerVariable) :
  (∀ pre v post,
     variables = (pre ++ v :: post)%list →
     (ApplyDefaults parameters pre !! FieldName v = None → Default v ≠ VNil →
        ApplyDefaults parameters (pre ++ [v]) =
          <[FieldName v := Default v]> (ApplyDefaults parameters pre))
     ∧ (is_Some (ApplyDefaults parameters pre !! FieldName v) ∨ Default v = VNil →
        ApplyDefaults parameters (pre ++ [v]) = ApplyDefaults parameters pre))
  ∧ (∀ k x, parameters !! k = Some x →
       ApplyDefaults parameters variables !! k = Some x)
  ∧ (∀ k, parameters !! k = None →
       ApplyDefaults parameters variables !! k = Default <$> firstDefault k variables)
  ∧ (NoDup (FieldName <$> variables) →
       ∀ v, v ∈ variables → parameters !! FieldName v = None → Default v ≠ VNil →
         ApplyDefaults parameters variables !! FieldName v = Some (Default v))
  ∧ (∀ k, (∀ v, v ∈ variables → FieldName v = k → Default v = VNil) →
       ApplyDefaults parameters variables !! k = parameters !! k)
  ∧ ApplyDefaults (ApplyDefaults parameters variables) variables
      = ApplyDefaults parameters variables.
Proof.
  split_and!.
  - intros pre v post _. rewrite ApplyDefaults_app. simpl. unfold applyDefault.
    split.
    + intros Hnone Hd%notNil_true. rewrite Hnone, Hd.
      by rewrite bool_decide_eq_false_2 by (by intros [? ?]).
    + intros [Hsome|Hnil].
      * by rewrite bool_decide_eq_true_2.
      * rewrite Hnil. simpl. by rewrite andb_false_r.
  - intros k x Hk. by rewrite ApplyDefaults_lookup, Hk.
  - intros k Hk. by rewrite ApplyDefaults_lookup, Hk.
  - intros Hnd v Hv Hk Hd%notNil_true. rewrite ApplyDefaults_lookup, Hk.
    unfold firstDefault.
    apply list_elem_of_split in Hv as (pre & post & ->).
    rewrite filter_app, filter_cons_True by done.
    replace (filter _ pre) with (@nil BrokerVariable); [done|].
    symmetry. rewrite fmap_app, fmap_cons in Hnd.
    apply NoDup_app in Hnd as (_ & Hnd & _).
    induction pre as [|w pre IH]; [done|].
    rewrite filter_cons_False.
    + apply IH. intros n Hn. apply Hnd. rewrite fmap_cons. by right.
    + intros [Heq _]. apply (Hnd (FieldName w)).
      * rewrite fmap_cons. by left.
      * rewrite Heq. by left.
  - intros k Hall. rewrite ApplyDefaults_lookup.
    destruct (parameters !! k); [done|].
    unfold firstDefault.
    replace (filter _ variables) with (@nil BrokerVariable); [done|].
    symmetry. induction variables as [|w vs IH]; [done|].
    rewrite filter_cons_False.
    + apply IH. intros v Hv. apply Hall. by right.
    + intros [Heq Hd%notNil_true]. apply Hd, Hall; [by left|done].
  - apply ApplyDefaults_twice.
Qed.

(** A missing size is filled in; a size that is present, be it zero, the
    empty string or nil, stays. *)
Example ApplyDefaults_size :
  ApplyDefaults ∅ [sizeDefault] !! "size" = Some (VInt 10)
  ∧ ApplyDefaults {[ "size" := VInt 0 ]} [sizeDefault] !! "size" = Some (VInt 0)
  ∧ ApplyDefaults {[ "size" := VString "" ]} [sizeDefault] !! "size" = Some (VString "")
  ∧ ApplyDefaults {[ "size" := VNil ]} [sizeDefault] !! "size" = Some VNil
  ∧ ApplyDefaults ∅ [sizeFirst] !! "size" = None.
Proof. split_and!; vm_compute; reflexivity. Qed.

(** ** What [Validate] reports *)

Lemma isJSONSchemaType_true (value : string) :
  isJSONSchemaType value = true ↔ value ∈ recognisedTypes.
Proof. unfold isJSONSchemaType. apply bool_decide_eq_true. Qed.

Lemma Validate_unfold (bv : BrokerVariable) :
  Validate bv =
    ((if isBlank (FieldName bv) then [blankFieldName] else [])
     ++ (if isJSONSchemaType (Type_ bv) then [] else [invalidType])
     ++ (if isBlank (Details bv) then [blankDetails] else []))%list.
Proof.
  unfold Validate, Also, ErrIfBlank, ErrIfNotJSONSchemaType.
  by destruct (isBlank (FieldName bv)), (isJSONSchemaType (Type_ bv)),
    (isBlank (Details bv)).
Qed.

(** Splits on the three checks of [Validate]. *)
Ltac validate_cases :=
  match goal with
  | bv : BrokerVariable |- _ =>
    destruct (isBlank (FieldName bv)), (isJSONSchemaType (Type_ bv)),
      (isBlank (Details bv)); simpl;
    rewrite ?elem_of_cons, ?elem_of_nil;
    unfold blankFieldName, invalidType, blankDetails; naive_solver
  end.

(** C8. [Validate] returns, together and in one pass, a BlankField error
    for each of FieldName and Details that is blank and an
    InvalidSchemaType error when Type is none of string, number, integer,
    boolean, and nothing else; blank Details alone already fails. *)
Theorem Validate_collects (bv : BrokerVariable) :
  Validate bv =
    ((if isBlank (FieldName bv) then [blankFieldName] else [])
     ++ (if isJSONSchemaType (Type_ bv) then [] else [invalidType])
     ++ (if isBlank (Details bv) then [blankDetails] else []))%list
  ∧ (blankFieldName ∈ Validate bv ↔ isBlank (FieldName bv) = true)
  ∧ (invalidType ∈ Validate bv ↔ Type_ bv ∉ recognisedTypes)
  ∧ (blankDetails ∈ Validate bv ↔ isBlank (Details bv) = true)
  ∧ (Validate bv = [] ↔
       isBlank (FieldName bv) = false ∧ Type_ bv ∈ recognisedTypes
       ∧ isBlank (Details bv) = false)
  ∧ (isBlank (Details bv) = true → isBlank (FieldName bv) = false →
       Type_ bv ∈ recognisedTypes → Validate bv = [blankDetails])
  ∧ isBlank "" = true
  ∧ isBlank "   " = true
  ∧ isBlank "Size in GB" = false.
Proof.
  pose proof (isJSONSchemaType_true (Type_ bv)) as Ht.
  rewrite Validate_unfold.
  split_and!; [done|..|done|done|done].
  - validate_cases.
  - validate_cases.
  - validate_cases.
  - validate_cases.
  - intros -> -> Hty%Ht. by rewrite Hty.
Qed.

(** ** What the validator returns *)

Section ValidationClaims.
Context `{CO : Collaborators}.

Lemma foldl_Append (acc : multierror_Error) (rs : list ResultError) :
  foldl (λ acc r, multierror_Append acc (errors_New (ResultError_String r))) acc rs =
    {| Errors := (Errors acc ++ (ResultError_String <$> rs))%list;
       ErrorFormat := ErrorFormat acc |}.
Proof.
  revert acc. induction rs as [|r rs IH]; intros acc; csimpl.
  - rewrite app_nil_r. by destruct acc.
  - rewrite IH. unfold multierror_Append, errors_New. simpl.
    by rewrite <- app_assoc.
Qed.

(** C2. A processing error of the engine is returned as it is; the
    result is nil exactly when the engine reports no violation; otherwise
    the result is one aggregate whose errors are the violations' strings,
    one per violation and in their order, rendered by the single-line
    formatter. *)
Theorem ValidateVariablesAgainstSchema_result (parameters schema : gmap string Value) :
  (∀ err, gojsonschema_Validate schema parameters = inl err →
     ValidateVariablesAgainstSchema parameters schema = Some (EngineFailure err))
  ∧ (ValidateVariablesAgainstSchema parameters schema = None ↔
       gojsonschema_Validate schema parameters = inr [])
  ∧ (∀ resultErrors,
       gojsonschema_Validate schema parameters = inr resultErrors →
       resultErrors ≠ [] →
       ∃ allErrors,
         ValidateVariablesAgainstSchema parameters schema = Some (Aggregate allErrors)
         ∧ Errors allErrors = ResultError_String <$> resultErrors
         ∧ length (Errors allErrors) = length resultErrors
         ∧ ErrorFormat allErrors = SingleLineErrorFormatter
         ∧ multierror_String allErrors
             = SingleLineErrorFormatter (ResultError_String <$> resultErrors)
         ∧ (Forall (λ r, singleLine (ResultError_String r)) resultErrors →
            Forall singleLine (Errors allErrors))).
Proof.
  unfold ValidateVariablesAgainstSchema.
  destruct (gojsonschema_Validate schema parameters) as [err|rs] eqn:Hengine.
  - split_and!; [by intros ? [= ->]|done|done].
  - split_and!; [done| |].
    + destruct (decide (length rs = 0)) as [Hz|Hnz].
      * by destruct rs.
      * split; [done|]. intros [= ->]. by destruct Hnz.
    + intros ? [= <-] Hne. rewrite foldl_Append.
      destruct (decide (length rs = 0)) as [Hz|_]; [by destruct rs|].
      eexists; split_and!; [done|..]; unfold multierror_String;
        cbn [Errors ErrorFormat app]; [done|by rewrite length_fmap|done|done|].
      intros Hall. by apply Forall_fmap.
Qed.

End ValidationClaims.

(** ** What the code leaves alone *)

Section Keeps.
Context (F : gset loc).

Lemma keeps_dom {A : Type} (c : Store.M A) h r h' :
  keeps F c → F ⊆ dom h → c h = Some (r, h') → F ⊆ dom h'.
Proof.
  intros Hc HF Hrun l Hl. apply elem_of_dom.
  rewrite (Hc h r h' HF Hrun l Hl). apply elem_of_dom. by apply HF.
Qed.

Lemma keeps_ret {A : Type} (x : A) : keeps F (Store.ret x).
Proof. by intros h r h' _ [= _ <-]. Qed.

Lemma keeps_bind {A B : Type} (c : Store.M A) (k : A → Store.M B) :
  keeps F c → (∀ x, keeps F (k x)) → keeps F (Store.bind c k).
Proof.
  intros Hc Hk h r h' HF Hrun l Hl. unfold Store.bind in Hrun.
  destruct (c h) as [[x h1]|] eqn:Hc1; [|done].
  trans (h1 !! l).
  - apply (Hk x h1 r h'); eauto using keeps_dom.
  - by apply (Hc h x h1).
Qed.

(** What is allocated lies outside [F], and may be written to. *)
Lemma keeps_alloc {B : Type} (o : Store.Obj) (k : loc → Store.M B) :
  (∀ l, l ∉ F → keeps F (k l)) → keeps F (Store.bind (Store.alloc o) k).
Proof.
  intros Hk h r h' HF Hrun l Hl. unfold Store.bind, Store.alloc in Hrun.
  assert (fresh (dom h) ∉ F) as Hfresh.
  { intros Hin. apply (is_fresh (dom h)). by apply HF. }
  trans (<[fresh (dom h) := o]> h !! l).
  - apply (Hk _ Hfresh _ r h'); [|done|done].
    rewrite dom_insert_L. set_solver.
  - apply lookup_insert_ne. by intros <-.
Qed.

Lemma keeps_loadStruct (bv : loc) : keeps F (Store.loadStruct bv).
Proof.
  intros h r h' _ Hrun. unfold Store.loadStruct in Hrun.
  destruct (h !! bv) as [[]|]; by simplify_eq.
Qed.

Lemma keeps_loadMap (m : loc) : keeps F (Store.loadMap m).
Proof.
  intros h r h' _ Hrun. unfold Store.loadMap in Hrun.
  destruct (h !! m) as [[]|]; by simplify_eq.
Qed.

Lemma keeps_loadEnum (m : loc) : keeps F (Store.loadEnum m).
Proof.
  intros h r h' _ Hrun. unfold Store.loadEnum in Hrun.
  destruct (h !! m) as [[]|]; by simplify_eq.
Qed.

Lemma keeps_mapAssign (m : loc) (k : string) (v : Value) :
  m ∉ F → keeps F (Store.mapAssign m k v).
Proof.
  intros Hm h r h' _ Hrun l Hl. unfold Store.mapAssign in Hrun.
  destruct (h !! m) as [[]|]; simplify_eq.
  apply lookup_insert_ne. by intros <-.
Qed.

Lemma keeps_when (cond : bool) (body : Store.M unit) :
  keeps F body → keeps F (Store.when cond body).
Proof. destruct cond; [done|]. intros _. apply keeps_ret. Qed.

Lemma keeps_forEach {A : Type} (xs : list A) (body : A → Store.M unit) :
  (∀ x, keeps F (body x)) → keeps F (Store.forEach xs body).
Proof.
  intros Hbody. induction xs as [|x xs IH]; simpl.
  - apply keeps_ret.
  - by apply keeps_bind.
Qed.

End Keeps.

Create HintDb keeps.

#[local] Hint Resolve keeps_ret keeps_bind keeps_alloc keeps_loadStruct
  keeps_loadMap keeps_loadEnum keeps_mapAssign keeps_when keeps_forEach : keeps.

Section KeepsCode.
Context `{RT : GoRuntime} `{CO : Collaborators}.

Lemma keeps_Validate (F : gset loc) (bv : loc) : keeps F (Store.Validate bv).
Proof. unfold Store.Validate. auto with keeps. Qed.

Lemma keeps_ToSchema (F : gset loc) (bv : loc) : keeps F (Store.ToSchema bv).
Proof.
  unfold Store.ToSchema. apply keeps_alloc. intros schema Hschema.
  repeat (first [apply keeps_bind | intros ?]; auto with keeps).
Qed.

Lemma keeps_collectAll (F : gset loc) (properties : loc) (required : StringSet)
    (vs : list Store.Descriptor) :
  properties ∉ F → keeps F (Store.collectAll properties required vs).
Proof.
  intros Hp. revert required. induction vs as [|v vs IH]; intros required; simpl.
  - apply keeps_ret.
  - apply keeps_bind; [|auto]. unfold Store.collect.
    apply keeps_alloc. intros variable _.
    apply keeps_bind; [apply keeps_ToSchema|]. intros fragment.
    repeat (first [apply keeps_bind | intros ?]; auto with keeps).
Qed.

Lemma keeps_CreateJsonSchema (F : gset loc) (vs : list Store.Descriptor) :
  keeps F (Store.CreateJsonSchema vs).
Proof.
  unfold Store.CreateJsonSchema. apply keeps_alloc. intros properties Hp.
  apply keeps_bind; [by apply keeps_collectAll|]. intros required.
  apply keeps_alloc. intros schema Hs.
  repeat (first [apply keeps_bind | intros ?]; auto with keeps).
Qed.

Lemma keeps_ApplyDefaults (F : gset loc) (parameters : loc)
    (vs : list Store.Descriptor) :
  parameters ∉ F → keeps F (Store.ApplyDefaults parameters vs).
Proof.
  intros Hp. unfold Store.ApplyDefaults. apply keeps_forEach. intros v.
  repeat (first [apply keeps_bind | intros ?]; auto with keeps).
Qed.

End KeepsCode.

(** ** What the code computes over the store *)

Lemma bind_run {A B : Type} (c : Store.M A) (k : A → Store.M B) h x h1 :
  c h = Some (x, h1) → Store.bind c k h = k x h1.
Proof. intros Hc. unfold Store.bind. by rewrite Hc. Qed.

Lemma mapAssign_run (h : Store.heap) (l : loc) (m : gmap string Value)
    (k : string) (v : Value) :
  h !! l = Some (Store.OMap m) →
  Store.mapAssign l k v h = Some (tt, <[l := Store.OMap (<[k := v]> m)]> h).
Proof. intros Hl. unfold Store.mapAssign. by rewrite Hl. Qed.

Section Runs.
Context (h : Store.heap) (l : loc).

Lemma run_mapAssign (m : gmap string Value) (k : string) (v : Value) :
  Store.mapAssign l k v (<[l := Store.OMap m]> h)
    = Some (tt, <[l := Store.OMap (<[k := v]> m)]> h).
Proof.
  unfold Store.mapAssign. by rewrite lookup_insert_eq, insert_insert_eq.
Qed.

Lemma run_when (cond : bool) (m : gmap string Value) (k : string) (v : Value) :
  Store.when cond (Store.mapAssign l k v) (<[l := Store.OMap m]> h)
    = Some (tt, <[l := Store.OMap (if cond then <[k := v]> m else m)]> h).
Proof. destruct cond; [apply run_mapAssign|done]. Qed.

Lemma run_forEach (m : gmap string Value) (kvs : list (string * Value)) :
  Store.forEach kvs (λ kv, Store.mapAssign l kv.1 kv.2) (<[l := Store.OMap m]> h)
    = Some (tt, <[l := Store.OMap (foldl assign m kvs)]> h).
Proof.
  revert m. induction kvs as [|kv kvs IH]; intros m; [done|].
  cbn [Store.forEach foldl].
  rewrite (bind_run _ _ _ _ _ (run_mapAssign m kv.1 kv.2)). apply IH.
Qed.

Lemma run_loadStruct (o : Store.Obj) (bv : loc) (d : Store.Descriptor) :
  h !! bv = Some (Store.OStruct d) → bv ≠ l →
  Store.loadStruct bv (<[l := o]> h) = Some (d, <[l := o]> h).
Proof.
  intros Hbv Hne. unfold Store.loadStruct. by rewrite lookup_insert_ne, Hbv.
Qed.

Lemma run_loadMap (o : Store.Obj) (m : loc) (c : gmap string Value) :
  h !! m = Some (Store.OMap c) → m ≠ l →
  Store.loadMap m (<[l := o]> h) = Some (c, <[l := o]> h).
Proof.
  intros Hm Hne. unfold Store.loadMap. by rewrite lookup_insert_ne, Hm.
Qed.

Lemma run_loadEnum (o : Store.Obj) (m : loc) (e : gmap EnumKey string) :
  h !! m = Some (Store.OEnum e) → m ≠ l →
  Store.loadEnum m (<[l := o]> h) = Some (e, <[l := o]> h).
Proof.
  intros Hm Hne. unfold Store.loadEnum. by rewrite lookup_insert_ne, Hm.
Qed.

End Runs.

Lemma fresh_ne (h : Store.heap) (l : loc) (o : Store.Obj) :
  h !! l = Some o → l ≠ fresh (dom h).
Proof.
  intros Hl ->. apply (is_fresh (dom h)). apply elem_of_dom. by rewrite Hl.
Qed.

Lemma content_Some (h : Store.heap) (d : Store.Descriptor) (v : BrokerVariable) :
  content h d = Some v →
  h !! Store.Enum d = Some (Store.OEnum (Enum v))
  ∧ h !! Store.Constraints d = Some (Store.OMap (Constraints v))
  ∧ v = pureOf d (Enum v) (Constraints v).
Proof.
  unfold content. intros Hc.
  destruct (h !! Store.Enum d) as [[| e |]|]; try done.
  destruct (h !! Store.Constraints d) as [[| | c]|]; try done.
  by simplify_eq.
Qed.

Section RunCode.
Context `{RT : GoRuntime}.

Lemma if_bool_decide {A : Type} `{Decision P} (a b : A) :
  (if bool_decide P then a else b) = (if decide P then a else b).
Proof. by destruct (decide P); [rewrite bool_decide_eq_true_2|rewrite bool_decide_eq_false_2]. Qed.

(** [ToSchema] by pointer allocates the fragment of the functional model
    and touches nothing else. *)
Lemma ToSchema_run (h : Store.heap) (bv : loc) (d : Store.Descriptor)
    (v : BrokerVariable) :
  h !! bv = Some (Store.OStruct d) → content h d = Some v →
  Store.ToSchema bv h
    = Some (fresh (dom h), <[fresh (dom h) := Store.OMap (ToSchema v)]> h).
Proof.
  intros Hbv (He & Hc & Hv)%content_Some.
  set (l := fresh (dom h)).
  unfold Store.ToSchema.
  rewrite (bind_run _ _ h l (<[l := Store.OMap ∅]> h)) by done.
  erewrite bind_run by (apply run_loadStruct; eauto using fresh_ne).
  erewrite bind_run by apply run_when.
  erewrite bind_run by (apply run_loadMap; eauto using fresh_ne).
  erewrite bind_run by apply run_forEach.
  erewrite bind_run by (apply run_loadEnum; eauto using fresh_ne).
  do 4 (erewrite bind_run by apply run_when).
  unfold Store.ret. do 3 f_equal.
  rewrite Hv. unfold ToSchema, pureOf, enumeration; cbn [FieldName Type_ Details Default Enum Constraints].
  by rewrite !if_bool_decide.
Qed.

Lemma content_mono (h h' : Store.heap) (d : Store.Descriptor) (v : BrokerVariable) :
  h ⊆ h' → content h d = Some v → content h' d = Some v.
Proof.
  intros Hsub (He & Hc & Hv)%content_Some. unfold content.
  rewrite (lookup_weaken _ _ _ _ He Hsub), (lookup_weaken _ _ _ _ Hc Hsub).
  by rewrite Hv at 3.
Qed.

(** The loop of [CreateJsonSchema], started in a store [h] that extends
    the store [h0] the descriptors were given in. *)
Lemma collectAll_run (h0 : Store.heap) (properties : loc)
    (ds : list Store.Descriptor) (vs : list BrokerVariable) :
  Forall2 (λ d v, content h0 d = Some v) ds vs →
  properties ∉ dom h0 →
  ∀ (h : Store.heap) (props : gmap string Value) (required : StringSet),
    h0 ⊆ h → h !! properties = Some (Store.OMap props) →
    ∃ h' props',
      Store.collectAll properties required ds h
        = Some (requiredNames vs ∪ required, h')
      ∧ h' !! properties = Some (Store.OMap props')
      ∧ (∀ l, l ∈ dom h → l ≠ properties → h' !! l = h !! l)
      ∧ (∀ name,
           match lastNamed name vs with
           | Some v =>
             ∃ fragment,
               props' !! name = Some (VRef fragment) ∧ (fragment ∉ dom h)
               ∧ h' !! fragment = Some (Store.OMap (ToSchema v))
           | None => props' !! name = props !! name
           end).
Proof.
  intros Hds Hp0. induction Hds as [|d v ds vs Hd Hds IH];
    intros h props required Hsub Hprops.
  - exists h, props. split_and!; [|done|done|done].
    simpl. unfold Store.ret, requiredNames. simpl.
    by rewrite (left_id_L ∅ (∪)).
  - set (variable := fresh (dom h)).
    set (h1 := <[variable := Store.OStruct d]> h).
    set (fragment := fresh (dom h1)).
    set (h2 := <[fragment := Store.OMap (ToSchema v)]> h1).
    set (props3 := <[FieldName v := VRef fragment]> props).
    set (h3 := <[properties := Store.OMap props3]> h2).
    assert (properties ∈ dom h) as Hpdom by (apply elem_of_dom; eauto).
    assert (variable ∉ dom h) as Hvar by apply is_fresh.
    assert (fragment ∉ dom h1) as Hfrag by apply is_fresh.
    assert (dom h1 = {[variable]} ∪ dom h) as Hdom1 by apply dom_insert_L.
    assert (dom h2 = {[fragment]} ∪ dom h1) as Hdom2 by apply dom_insert_L.
    assert (properties ≠ variable) as Hpv by (by intros <-).
    assert (properties ≠ fragment) as Hpf.
    { intros <-. apply Hfrag. rewrite Hdom1. set_solver. }
    assert (h ⊆ h1) as Hsub1.
    { apply insert_subseteq. by apply not_elem_of_dom. }
    pose proof Hd as (_ & _ & Hv)%content_Some.
    assert (Store.Required d = Required v) as HR by (by rewrite Hv).
    assert (Store.FieldName d = FieldName v) as HN by (by rewrite Hv).
    assert (Store.collect properties required d h
      = Some (if Required v then StringSet_Add required (FieldName v) else required, h3))
      as Hcollect.
    { unfold Store.collect.
      rewrite (bind_run _ _ h variable h1) by done.
      erewrite bind_run; last first.
      { apply (ToSchema_run h1 variable d v).
        - apply lookup_insert_eq.
        - apply (content_mono h0); [by trans h|done]. }
      fold fragment h2.
      erewrite bind_run; last first.
      { apply run_loadStruct; [apply lookup_insert_eq|].
        intros Heq. apply Hfrag. rewrite <- Heq, Hdom1. set_solver. }
      assert (h2 !! properties = Some (Store.OMap props)) as Hp2.
      { unfold h2, h1. by rewrite !lookup_insert_ne. }
      erewrite bind_run by (apply mapAssign_run; exact Hp2).
      unfold Store.ret. by rewrite HR, HN. }
    destruct (IH h3 props3
      (if Required v then StringSet_Add required (FieldName v) else required))
      as (h' & props' & Hrun & Hprops' & Hsame & Hnames).
    { unfold h3. apply insert_subseteq_r; [by apply not_elem_of_dom|].
      trans h; [done|]. trans h1; [done|].
      apply insert_subseteq. by apply not_elem_of_dom. }
    { apply lookup_insert_eq. }
    assert (dom h3 = {[properties]} ∪ dom h2) as Hdom3 by apply dom_insert_L.
    exists h', props'. split_and!.
    + cbn [Store.collectAll]. rewrite (bind_run _ _ _ _ _ Hcollect), Hrun.
      do 2 f_equal. unfold requiredNames, StringSet_Add.
      destruct (Required v) eqn:Hr.
      * rewrite filter_cons_True by done. rewrite fmap_cons, list_to_set_cons.
        set_solver.
      * by rewrite filter_cons_False by (by rewrite Hr).
    + done.
    + intros l Hl Hne. rewrite Hsame; [|rewrite Hdom3, Hdom2, Hdom1; set_solver|done].
      unfold h3, h2, h1. rewrite !lookup_insert_ne; [done|..].
      * by intros <-.
      * intros <-. apply Hfrag. rewrite Hdom1. set_solver.
      * done.
    + intros name. rewrite lastNamed_cons. specialize (Hnames name).
      destruct (lastNamed name vs) as [w|].
      * destruct Hnames as (lf & Hlf & Hfresh & Hobj). exists lf.
        split_and!; [done| |done].
        intros Hin. apply Hfresh. rewrite Hdom3, Hdom2, Hdom1. set_solver.
      * rewrite Hnames. unfold props3.
        destruct (decide (FieldName v = name)) as [<-|Hne].
        -- exists fragment. rewrite lookup_insert_eq. split_and!; [done| |].
           ++ intros Hin. apply Hfrag. rewrite Hdom1. set_solver.
           ++ rewrite Hsame; [|rewrite Hdom3, Hdom2; set_solver|done].
              unfold h3. rewrite lookup_insert_ne by done. apply lookup_insert_eq.
        -- by rewrite lookup_insert_ne.
Qed.

(** [CreateJsonSchema] over the store builds the document of the
    functional model, with a reference where that one has the content:
    properties is a new map, which holds under each name a reference to a
    new map, the fragment of the last descriptor bearing the name. *)
Lemma CreateJsonSchema_run (h : Store.heap)
    (ds : list Store.Descriptor) (vs : list BrokerVariable) :
  Forall2 (λ d v, content h d = Some v) ds vs →
  ∃ schema properties props h',
    Store.CreateJsonSchema ds h = Some (schema, h')
    ∧ (schema ∉ dom h) ∧ (properties ∉ dom h) ∧ schema ≠ properties
    ∧ h' !! schema
        = Some (Store.OMap (<["properties" := VRef properties]> (CreateJsonSchema vs)))
    ∧ h' !! properties = Some (Store.OMap props)
    ∧ (∀ l, l ∈ dom h → h' !! l = h !! l)
    ∧ (∀ name,
         match lastNamed name vs with
         | Some v =>
           ∃ fragment,
             props !! name = Some (VRef fragment) ∧ (fragment ∉ dom h)
             ∧ h' !! fragment = Some (Store.OMap (ToSchema v))
         | None => props !! name = None
         end).
Proof.
  intros Hds.
  set (properties := fresh (dom h)).
  set (h1 := <[properties := Store.OMap ∅]> h).
  assert (properties ∉ dom h) as Hp by apply is_fresh.
  assert (h ⊆ h1) as Hsub by (apply insert_subseteq; by apply not_elem_of_dom).
  destruct (collectAll_run h properties ds vs Hds Hp h1 ∅ NewStringSet Hsub)
    as (h2 & props & Hrun & Hprops & Hsame & Hnames); [apply lookup_insert_eq|].
  set (schema := fresh (dom h2)).
  assert (schema ∉ dom h2) as Hs by apply is_fresh.
  assert (dom h1 = {[properties]} ∪ dom h) as Hdom1 by apply dom_insert_L.
  assert (dom h ⊆ dom h2) as Hdom2.
  { intros l Hl. apply elem_of_dom. rewrite Hsame.
    - apply elem_of_dom. rewrite Hdom1. set_solver.
    - rewrite Hdom1. set_solver.
    - by intros ->. }
  assert (properties ≠ schema) as Hps.
  { intros Heq. apply Hs. rewrite <- Heq. apply elem_of_dom. eauto. }
  eexists schema, properties, props, _. split_and!.
  - unfold Store.CreateJsonSchema.
    rewrite (bind_run _ _ h properties h1) by done.
    rewrite (bind_run _ _ _ _ _ Hrun).
    erewrite bind_run by done.
    erewrite bind_run by apply run_when.
    reflexivity.
  - intros Hin. apply Hs. by apply Hdom2.
  - done.
  - done.
  - rewrite lookup_insert_eq. do 2 f_equal.
    rewrite CreateJsonSchema_unfold. cbn zeta.
    unfold NewStringSet, StringSet_IsEmpty, StringSet_ToSlice.
    rewrite (right_id_L ∅ (∪)).
    destruct (decide (requiredNames vs = ∅)) as [He|Hne].
    + rewrite bool_decide_eq_true_2 by done. cbn [negb].
      apply map_eq. intros k. rewrite !lookup_insert, !lookup_empty.
      repeat (destruct (decide (_ = k)) as [<-|?]; [done|]). done.
    + rewrite bool_decide_eq_false_2 by done. cbn [negb].
      apply map_eq. intros k. rewrite !lookup_insert, !lookup_empty.
      repeat (destruct (decide (_ = k)) as [<-|?]; [done|]). done.
  - by rewrite lookup_insert_ne.
  - intros l Hl.
    rewrite lookup_insert_ne by (intros <-; apply Hs; by apply Hdom2).
    rewrite Hsame; [|rewrite Hdom1; set_solver|by intros ->].
    unfold h1. apply lookup_insert_ne. by intros <-.
  - intros name. specialize (Hnames name).
    destruct (lastNamed name vs) as [v|]; [|by rewrite Hnames].
    destruct Hnames as (fragment & Hfrag & Hfresh & Hobj). exists fragment.
    split_and!; [done| |].
    + intros Hin. apply Hfresh. rewrite Hdom1. set_solver.
    + rewrite lookup_insert_ne; [done|].
      intros <-. apply Hs. apply elem_of_dom. eauto.
Qed.

End RunCode.

(** [Validate] by pointer returns what the functional model returns. *)
Lemma Validate_run (h : Store.heap) (bv : loc) (d : Store.Descriptor)
    (e : gmap EnumKey string) (c : gmap string Value) :
  h !! bv = Some (Store.OStruct d) →
  Store.Validate bv h = Some (Validate (pureOf d e c), h).
Proof.
  intros Hbv. unfold Store.Validate, Store.bind, Store.loadStruct.
  by rewrite Hbv.
Qed.

(** [ApplyDefaults] over the store replaces the content of the payload
    by what the functional model computes from it. *)
Lemma when_run (h : Store.heap) (l : loc) (cond : bool)
    (m : gmap string Value) (k : string) (v : Value) :
  h !! l = Some (Store.OMap m) →
  Store.when cond (Store.mapAssign l k v) h
    = Some (tt, <[l := Store.OMap (if cond then <[k := v]> m else m)]> h).
Proof.
  intros Hl. destruct cond; simpl.
  - by apply mapAssign_run.
  - unfold Store.ret. by rewrite insert_id.
Qed.

Lemma ApplyDefaults_run (parameters : loc) (ds : list Store.Descriptor)
    (e : gmap EnumKey string) (c : gmap string Value) :
  ∀ (h : Store.heap) (m : gmap string Value),
    h !! parameters = Some (Store.OMap m) →
    Store.ApplyDefaults parameters ds h
      = Some (tt, <[parameters :=
                     Store.OMap (ApplyDefaults m ((λ d, pureOf d e c) <$> ds))]> h).
Proof.
  unfold Store.ApplyDefaults, ApplyDefaults.
  induction ds as [|d ds IH]; intros h m Hm.
  - simpl. unfold Store.ret. by rewrite insert_id.
  - cbn [Store.forEach fmap list_fmap foldl].
    erewrite bind_run; last first.
    { erewrite bind_run; last first.
      { unfold Store.loadMap. by rewrite Hm. }
      by apply when_run. }
    erewrite IH by apply lookup_insert_eq.
    by rewrite insert_insert_eq.
Qed.

Section FrameClaims.
Context `{RT : GoRuntime} `{CO : Collaborators}.

Lemma NewGoLoader_run (h : Store.heap) (m : loc) (c : gmap string Value) :
  h !! m = Some (Store.OMap c) →
  Store.NewGoLoader m h = Some (Store.view (size h) h <$> c, h).
Proof.
  intros Hm. unfold Store.NewGoLoader, Store.bind, Store.loadMap. by rewrite Hm.
Qed.

Lemma NewGoLoader_inv (h h' : Store.heap) (m : loc) (r : gmap string Value) :
  Store.NewGoLoader m h = Some (r, h') →
  h' = h ∧ ∃ c, h !! m = Some (Store.OMap c).
Proof.
  unfold Store.NewGoLoader, Store.bind, Store.loadMap.
  destruct (h !! m) as [[| | c]|]; try done. intros [= _ <-]. eauto.
Qed.

(** Over the store too the validator returns what the functional model
    returns on the two maps as the loaders read them, and writes
    nothing. *)
Lemma ValidateVariablesAgainstSchema_run (h : Store.heap) (parameters schema : loc)
    (p s : gmap string Value) :
  h !! parameters = Some (Store.OMap p) → h !! schema = Some (Store.OMap s) →
  Store.ValidateVariablesAgainstSchema parameters schema h
    = Some (ValidateVariablesAgainstSchema (Store.view (size h) h <$> p)
              (Store.view (size h) h <$> s), h).
Proof.
  intros Hp Hs. unfold Store.ValidateVariablesAgainstSchema.
  rewrite (bind_run _ _ _ _ _ (NewGoLoader_run h schema s Hs)).
  rewrite (bind_run _ _ _ _ _ (NewGoLoader_run h parameters p Hp)).
  unfold ValidateVariablesAgainstSchema.
  destruct (gojsonschema_Validate _ _) as [err|rs]; [done|].
  by destruct (decide (length rs = 0)).
Qed.

Lemma ValidateVariablesAgainstSchema_inv (h h' : Store.heap)
    (parameters schema : loc) (r : option error) :
  Store.ValidateVariablesAgainstSchema parameters schema h = Some (r, h') → h' = h.
Proof.
  unfold Store.ValidateVariablesAgainstSchema, Store.bind at 1.
  destruct (Store.NewGoLoader schema h) as [[ls h1]|] eqn:H1; [|done].
  apply NewGoLoader_inv in H1 as [-> _]. unfold Store.bind.
  destruct (Store.NewGoLoader parameters h) as [[lp h2]|] eqn:H2; [|done].
  apply NewGoLoader_inv in H2 as [-> _].
  destruct (gojsonschema_Validate _ _) as [err|rs]; [by intros [= _ <-]|].
  destruct (decide (length rs = 0)); by intros [= _ <-].
Qed.

(** C9. Over the store, descriptor validation, [ToSchema],
    [CreateJsonSchema], [ValidateVariables] and
    [ValidateVariablesAgainstSchema] leave every object of the store they
    are started in as it is (what they build is new); [ApplyDefaults]
    leaves every object but the payload as it is.  Each of them does
    return when the addresses it is given hold what their types say.
    ([fieldNameToLabel] takes and returns strings, which are values.) *)
Theorem store_frame (h : Store.heap) :
  (∀ bv r h', Store.Validate bv h = Some (r, h') → h' = h)
  ∧ (∀ bv r h', Store.ToSchema bv h = Some (r, h') →
       ∀ l, l ∈ dom h → h' !! l = h !! l)
  ∧ (∀ ds r h', Store.CreateJsonSchema ds h = Some (r, h') →
       ∀ l, l ∈ dom h → h' !! l = h !! l)
  ∧ (∀ parameters schema r h',
       Store.ValidateVariablesAgainstSchema parameters schema h = Some (r, h') →
       h' = h)
  ∧ (∀ parameters ds r h',
       Store.ValidateVariables parameters ds h = Some (r, h') →
       ∀ l, l ∈ dom h → h' !! l = h !! l)
  ∧ (∀ parameters ds r h',
       Store.ApplyDefaults parameters ds h = Some (r, h') →
       ∀ l, l ∈ dom h → l ≠ parameters → h' !! l = h !! l)
  ∧ (∀ bv d, h !! bv = Some (Store.OStruct d) →
       is_Some (Store.Validate bv h))
  ∧ (∀ bv d v, h !! bv = Some (Store.OStruct d) → content h d = Some v →
       ∃ r h', Store.ToSchema bv h = Some (r, h') ∧ (r ∉ dom h)
         ∧ h' !! r = Some (Store.OMap (ToSchema v)))
  ∧ (∀ ds vs, Forall2 (λ d v, content h d = Some v) ds vs →
       is_Some (Store.CreateJsonSchema ds h))
  ∧ (∀ parameters schema p s,
       h !! parameters = Some (Store.OMap p) → h !! schema = Some (Store.OMap s) →
       is_Some (Store.ValidateVariablesAgainstSchema parameters schema h))
  ∧ (∀ parameters p ds vs,
       h !! parameters = Some (Store.OMap p) →
       Forall2 (λ d v, content h d = Some v) ds vs →
       is_Some (Store.ValidateVariables parameters ds h))
  ∧ (∀ parameters p ds,
       h !! parameters = Some (Store.OMap p) →
       Store.ApplyDefaults parameters ds h
         = Some (tt, <[parameters :=
                        Store.OMap (ApplyDefaults p ((λ d, pureOf d ∅ ∅) <$> ds))]> h)).
Proof.
  split_and!.
  - intros bv r h'. unfold Store.Validate, Store.bind, Store.loadStruct.
    destruct (h !! bv) as [[d| |]|]; try done. by intros [= _ <-].
  - intros bv r h' Hrun. by apply (keeps_ToSchema (dom h) bv h r h').
  - intros ds r h' Hrun. by apply (keeps_CreateJsonSchema (dom h) ds h r h').
  - intros parameters schema r h'. apply ValidateVariablesAgainstSchema_inv.
  - intros parameters ds r h' Hrun l Hl.
    unfold Store.ValidateVariables, Store.bind in Hrun.
    destruct (Store.CreateJsonSchema ds h) as [[schema h1]|] eqn:Hc; [|done].
    apply ValidateVariablesAgainstSchema_inv in Hrun as ->.
    by apply (keeps_CreateJsonSchema (dom h) ds h schema h1).
  - intros parameters ds r h' Hrun l Hl Hne.
    apply (keeps_ApplyDefaults (dom h ∖ {[parameters]}) parameters ds) in Hrun.
    + apply Hrun. set_solver.
    + set_solver.
    + set_solver.
  - intros bv d Hbv. by rewrite (Validate_run h bv d ∅ ∅).
  - intros bv d v Hbv Hd. eexists _, _. split_and!.
    + by apply (ToSchema_run h bv d v).
    + apply is_fresh.
    + apply lookup_insert_eq.
  - intros ds vs Hds.
    destruct (CreateJsonSchema_run h ds vs Hds) as (? & ? & ? & ? & -> & _). done.
  - intros parameters schema p s Hp Hs.
    by rewrite (ValidateVariablesAgainstSchema_run h parameters schema p s).
  - intros parameters p ds vs Hp Hds.
    destruct (CreateJsonSchema_run h ds vs Hds)
      as (schema & properties & props & h1 & Hrun & _ & _ & _ & Hschema & _ & Hsame & _).
    unfold Store.ValidateVariables. rewrite (bind_run _ _ _ _ _ Hrun).
    erewrite ValidateVariablesAgainstSchema_run; [done| |done].
    rewrite Hsame; [done|]. apply elem_of_dom. eauto.
  - intros parameters p ds Hp. by apply ApplyDefaults_run.
Qed.

End FrameClaims.

(** ** What the loaders read *)




Section Loaders.
Context `{RT : GoRuntime} `{CO : Collaborators}.




End Loaders.

(** ** The store, evaluated *)

(** [ToSchema] on the sample store allocates the fragment at 5 and leaves
    the descriptor and its constraints as they are. *)
Example Store_ToSchema_sample :
  match Store.ToSchema (RT := refRuntime) 4%positive sampleStore with
  | Some (fragment, h') =>
    fragment = 5%positive
    ∧ h' !! fragment
        = Some (Store.OMap (ToSchema (RT := refRuntime)
                  (pureOf (sizeAt 2%positive 3%positive) ∅ {[ "minimum" := VInt 1 ]})))
    ∧ h' !! 3%positive = Some (Store.OMap {[ "minimum" := VInt 1 ]})
    ∧ h' !! 4%positive = Some (Store.OStruct (sizeAt 2%positive 3%positive))
  | None => False
  end.
Proof. vm_compute. split_and!; reflexivity. Qed.

(** [ApplyDefaults] writes the payload it is given: the map at 1, or,
    when the caller hands it the map at 3, that one. *)
Example Store_ApplyDefaults_sample :
  Store.ApplyDefaults 1%positive [sizeAt 2%positive 3%positive] sampleStore
    = Some (tt, <[1%positive := Store.OMap {[ "size" := VInt 10 ]}]> sampleStore)
  ∧ Store.ApplyDefaults 3%positive [sizeAt 2%positive 3%positive] sampleStore
    = Some (tt, <[3%positive :=
                   Store.OMap {[ "minimum" := VInt 1; "size" := VInt 10 ]}]> sampleStore).
Proof. split; vm_compute; reflexivity. Qed.

(** * Further properties *)

(** ** Decoding and the bytes of a field *)

Lemma firstInfo_lo (x sz lo hi : N) :
  firstInfo x = Some (sz, (lo, hi)) → (128 ≤ lo)%N.
Proof.
  unfold firstInfo.
  repeat match goal with |- context [if ?c then _ else _] => destruct c end;
    intros [= <- <- <-]; lia.
Qed.

Lemma byteIn_high (lo hi : N) (b : ascii) :
  (128 ≤ lo)%N → byteIn lo hi b = true → (128 ≤ byteN b)%N.
Proof. unfold byteIn. intros Hlo [H1 _]%andb_prop. apply N.leb_le in H1. lia. Qed.

(** The width of a rune is at least one, and the bytes after the first
    that belong to it are no ASCII bytes; an ASCII byte is its own rune. *)
Lemma Decode_width (b : ascii) (t : string) (r : rune) (w : nat) :
  DecodeRuneInString (String b t) = (r, w) →
  highPrefix (pred w) t ∧ ((byteN b < 128)%N → r = byteN b ∧ w = 1).
Proof.
  unfold DecodeRuneInString.
  destruct (byteN b <? 128)%N eqn:Hb.
  { intros [= <- <-]. by split. }
  apply N.ltb_ge in Hb.
  assert (∀ P : Prop, ((byteN b < 128)%N → P)) as Hasc by (intros; lia).
  destruct (firstInfo (byteN b)) as [[sz [lo hi]]|] eqn:Hfirst;
    [|intros [= <- <-]; split; [done|apply Hasc]].
  apply firstInfo_lo in Hfirst.
  destruct t as [|s1 t1]; [intros [= <- <-]; split; [done|apply Hasc]|].
  destruct (byteIn lo hi s1) eqn:H1; cbn [negb];
    [|intros [= <- <-]; split; [done|apply Hasc]].
  apply (byteIn_high lo hi s1 Hfirst) in H1.
  destruct (sz <=? 2)%N; [intros [= <- <-]; split; [done|apply Hasc]|].
  destruct t1 as [|s2 t2]; [intros [= <- <-]; split; [done|apply Hasc]|].
  destruct (byteIn 128 191 s2) eqn:H2; cbn [negb];
    [|intros [= <- <-]; split; [done|apply Hasc]].
  apply (byteIn_high 128 191 s2) in H2; [|lia].
  destruct (sz <=? 3)%N; [intros [= <- <-]; split; [done|apply Hasc]|].
  destruct t2 as [|s3 t3]; [intros [= <- <-]; split; [done|apply Hasc]|].
  destruct (byteIn 128 191 s3) eqn:H3; cbn [negb];
    [|intros [= <- <-]; split; [done|apply Hasc]].
  apply (byteIn_high 128 191 s3) in H3; [|lia].
  intros [= <- <-]. split; [done|apply Hasc].
Qed.

Lemma bytes_app (a b : string) : bytes (a ++ b) = (bytes a ++ bytes b)%list.
Proof. induction a as [|x a IH]; [done|]. rewrite append_cons. simpl. by f_equal. Qed.

Lemma separatorFree_grow (cur : option string) (b : ascii) :
  from_option separatorFree True cur → ¬ separatorByte b →
  from_option separatorFree True (growField cur b).
Proof.
  intros Hcur Hb. unfold growField, separatorFree. simpl.
  rewrite bytes_app. apply Forall_app. split.
  - by destruct cur.
  - by repeat constructor.
Qed.

(** No field holds an ASCII separator: not a hyphen, an underscore or a
    period, and no ASCII white space. *)
Lemma fieldsFrom_separatorFree (s : string) :
  ∀ (skip : nat) (cur : option string),
    highPrefix skip s → from_option separatorFree True cur →
    Forall separatorFree (fieldsFrom isSeparator skip cur s).
Proof.
  induction s as [|b t IH]; intros skip cur Hskip Hcur.
  - destruct cur; simpl; [by constructor|done].
  - cbn [fieldsFrom]. destruct skip as [|k].
    + destruct (DecodeRuneInString (String b t)) as [r w] eqn:Hdec.
      apply Decode_width in Hdec as [Hw Hascii].
      destruct (isSeparator r) eqn:Hsep.
      * destruct cur as [c|]; simpl; [apply Forall_cons; split; [done|]|];
          by apply IH.
      * apply IH; [done|]. apply separatorFree_grow; [done|].
        intros [Hb Hs]. destruct (Hascii Hb) as [-> _]. congruence.
    + destruct Hskip as [Hb Hk]. apply IH; [done|].
      destruct cur as [c|]; [|done].
      apply (separatorFree_grow (Some c)); [done|].
      intros [Hlt _]. lia.
Qed.

(** A string with a field has a rune that does not separate. *)
Lemma fieldsFrom_nil (f : rune → bool) (s : string) :
  ∀ (skip : nat) (cur : option string),
    fieldsFrom f skip cur s = [] →
    cur = None ∧ Forall (λ r, f r = true) (runesFrom skip s).
Proof.
  induction s as [|b t IH]; intros skip cur.
  - destruct cur; simpl; [done|]. by split.
  - cbn [fieldsFrom runesFrom]. destruct skip as [|k].
    + destruct (DecodeRuneInString (String b t)) as [r w].
      destruct (f r) eqn:Hr.
      * destruct cur as [c|]; simpl; [done|].
        intros [_ Hall]%IH. split; [done|]. by constructor.
      * intros [Hcur _]%IH. done.
    + intros [Hcur Hall]%IH. split; [|done]. by destruct cur.
Qed.

(** Decoding does not look past an ASCII byte. *)
Lemma byteIn_ascii (lo hi : N) (b : ascii) :
  (128 ≤ lo)%N → (byteN b < 128)%N → byteIn lo hi b = false.
Proof.
  intros Hlo Hb. unfold byteIn. apply andb_false_iff. left.
  apply N.leb_gt. lia.
Qed.

Lemma append_empty_l (a : string) : "" ++ a = a.
Proof. reflexivity. Qed.

Lemma Decode_before_ascii (b b0 : ascii) (t q : string) :
  (byteN b0 < 128)%N →
  DecodeRuneInString (String b (t ++ String b0 q)) = DecodeRuneInString (String b t).
Proof.
  intros Hb0. unfold DecodeRuneInString.
  destruct (byteN b <? 128)%N; [done|].
  destruct (firstInfo (byteN b)) as [[sz [lo hi]]|] eqn:Hfirst; [|done].
  apply firstInfo_lo in Hfirst.
  destruct t as [|s1 t1].
  { rewrite append_empty_l. by rewrite (byteIn_ascii lo hi b0). }
  rewrite append_cons.
  destruct (byteIn lo hi s1); cbn [negb]; [|done].
  destruct (sz <=? 2)%N; [done|].
  destruct t1 as [|s2 t2].
  { rewrite append_empty_l. by rewrite (byteIn_ascii 128 191 b0). }
  rewrite append_cons.
  destruct (byteIn 128 191 s2); cbn [negb]; [|done].
  destruct (sz <=? 3)%N; [done|].
  destruct t2 as [|s3 t3].
  { rewrite append_empty_l. by rewrite (byteIn_ascii 128 191 b0). }
  rewrite append_cons. done.
Qed.

(** Separators at the end add no field. *)
Lemma fieldsFrom_trailing (q : string) :
  Forall separatorByte (bytes q) →
  ∀ (s : string) (skip : nat) (cur : option string),
    highPrefix skip s →
    fieldsFrom isSeparator skip cur (s ++ q) = fieldsFrom isSeparator skip cur s.
Proof.
  intros Hq. induction s as [|b t IH]; intros skip cur Hskip.
  - destruct skip; [|done]. rewrite append_empty_l.
    destruct q as [|b0 q']; [done|].
    apply Forall_cons in Hq as [[Hb0 Hsep] Hq].
    cbn [fieldsFrom]. rewrite Decode_ascii, Hsep by done. cbn [pred].
    rewrite <- (append_empty_r q'), fieldsFrom_separator_run by done.
    done.
  - rewrite append_cons. cbn [fieldsFrom]. destruct skip as [|k].
    + destruct q as [|b0 q']; [by rewrite append_empty_r|].
      pose proof Hq as [[Hb0 _] _]%Forall_cons.
      rewrite Decode_before_ascii by done.
      destruct (DecodeRuneInString (String b t)) as [r w] eqn:Hdec.
      apply Decode_width in Hdec as [Hw _].
      destruct (isSeparator r); by rewrite IH.
    + destruct Hskip as [_ Hk]. by apply IH.
Qed.

(** ** Labels *)

Lemma upperByte_clean (b : ascii) : ¬ separatorByte b → ¬ separatorByte (upperByte b).
Proof.
  unfold separatorByte.
  destruct b as [[] [] [] [] [] [] [] []]; vm_compute; tauto.
Qed.

Lemma upperByte_not_lower (b : ascii) : isLowerByte (upperByte b) = false.
Proof. destruct b as [[] [] [] [] [] [] [] []]; vm_compute; reflexivity. Qed.

Lemma labelComponent_separatorFree (c : string) :
  c ≠ "" → separatorFree c →
  labelComponent c ≠ "" ∧ separatorFree (labelComponent c).
Proof.
  intros Hne Hc.
  destruct (decide (c ∈ acronymTable.*1)) as [Hin|Hout].
  - unfold acronymTable in Hin. simpl in Hin.
    rewrite !elem_of_cons, elem_of_nil in Hin.
    destruct_or!; try done; subst c; (split; [done|]);
      unfold separatorFree, separatorByte; repeat constructor;
      vm_compute; intros [_ ?]; discriminate.
  - rewrite labelComponent_other by done.
    destruct c as [|b rest]; [done|]. split; [done|].
    apply Forall_cons in Hc as [Hb Hrest].
    apply Forall_cons. split; [by apply upperByte_clean|done].
Qed.

Lemma labelComponent_twice (c : string) :
  labelComponent (labelComponent c) = labelComponent c.
Proof.
  destruct (decide (c ∈ acronymTable.*1)) as [Hin|Hout].
  - unfold acronymTable in Hin. simpl in Hin.
    rewrite !elem_of_cons, elem_of_nil in Hin.
    destruct_or!; try done; subst c; vm_compute; reflexivity.
  - rewrite (labelComponent_other c) by done.
    destruct c as [|b rest]; [done|]. cbn [capitalizeFirst].
    rewrite labelComponent_other.
    + cbn [capitalizeFirst]. f_equal. unfold upperByte at 1.
      by rewrite upperByte_not_lower.
    + pose proof (upperByte_not_lower b) as Hup.
      unfold acronymTable. simpl. rewrite !elem_of_cons, elem_of_nil.
      intros H. destruct_or!; try done; simplify_eq;
        match goal with
        | H : upperByte b = _ |- _ => rewrite H in Hup
        | H : _ = upperByte b |- _ => rewrite <- H in Hup
        end;
        vm_compute in Hup; discriminate.
Qed.

Lemma Join_nonempty (cs : list string) (sep : string) :
  Forall (λ c, c ≠ "") cs → Join cs sep = "" → cs = [].
Proof.
  unfold Join. destruct cs as [|c cs]; [done|].
  intros [Hc _]%Forall_cons. destruct c as [|b c]; [done|].
  destruct cs; simpl; discriminate.
Qed.

Lemma bytes_Join (P : ascii → Prop) (cs : list string) (sep : string) :
  Forall (λ c, Forall P (bytes c)) cs → Forall P (bytes sep) →
  Forall P (bytes (Join cs sep)).
Proof.
  intros Hcs Hsep. unfold Join. induction Hcs as [|c cs Hc Hcs IH]; [constructor|].
  destruct cs as [|c' cs]; [done|].
  change (String.concat sep (c :: c' :: cs))
    with (c ++ sep ++ String.concat sep (c' :: cs)).
  rewrite !bytes_app. by rewrite !Forall_app.
Qed.

(** The fields of a name, all non-empty and free of ASCII separators. *)
Lemma FieldsFunc_fields (s : string) :
  Forall (λ c, c ≠ "" ∧ separatorFree c) (FieldsFunc s isSeparator).
Proof.
  apply Forall_and. split.
  - apply FieldsFunc_nonempty.
  - by apply fieldsFrom_separatorFree.
Qed.

(** ** Fields read again *)

(** Decoding reads no byte beyond the rune. *)
Lemma Decode_truncate (b : ascii) (p y : string) (r : rune) (w : nat) :
  DecodeRuneInString (String b (p ++ y)) = (r, w) → (pred w ≤ String.length p)%nat →
  DecodeRuneInString (String b p) = (r, w).
Proof.
  unfold DecodeRuneInString.
  destruct (byteN b <? 128)%N; [done|].
  destruct (firstInfo (byteN b)) as [[sz [lo hi]]|]; [|done].
  destruct p as [|s1 p1].
  { rewrite append_empty_l. destruct y as [|s1 y1]; [done|].
    destruct (byteIn lo hi s1); cbn [negb]; [|done].
    destruct (sz <=? 2)%N; [intros [= <- <-]; simpl; lia|].
    destruct y1 as [|s2 y2]; [done|].
    destruct (byteIn 128 191 s2); cbn [negb]; [|done].
    destruct (sz <=? 3)%N; [intros [= <- <-]; simpl; lia|].
    destruct y2 as [|s3 y3]; [done|].
    destruct (byteIn 128 191 s3); cbn [negb]; [|done].
    intros [= <- <-]; simpl; lia. }
  rewrite append_cons.
  destruct (byteIn lo hi s1); cbn [negb]; [|done].
  destruct (sz <=? 2)%N; [done|].
  destruct p1 as [|s2 p2].
  { rewrite append_empty_l. destruct y as [|s2 y2]; [done|].
    destruct (byteIn 128 191 s2); cbn [negb]; [|done].
    destruct (sz <=? 3)%N; [intros [= <- <-]; simpl; lia|].
    destruct y2 as [|s3 y3]; [done|].
    destruct (byteIn 128 191 s3); cbn [negb]; [|done].
    intros [= <- <-]; simpl; lia. }
  rewrite append_cons.
  destruct (byteIn 128 191 s2); cbn [negb]; [|done].
  destruct (sz <=? 3)%N; [done|].
  destruct p2 as [|s3 p3].
  { rewrite append_empty_l. destruct y as [|s3 y3]; [done|].
    destruct (byteIn 128 191 s3); cbn [negb]; [|done].
    intros [= <- <-]; simpl; lia. }
  rewrite append_cons. done.
Qed.

Lemma Decode_before (b : ascii) (t q : string) :
  asciiHead q →
  DecodeRuneInString (String b (t ++ q)) = DecodeRuneInString (String b t).
Proof.
  destruct q as [|b0 q]; [by rewrite append_empty_r|].
  apply Decode_before_ascii.
Qed.

Section Whole.
Context (f : rune → bool).

Lemma fieldPrefix_length (p : string) :
  ∀ (skip : nat) (s : string),
    fieldPrefix f skip p s → ∃ y, s = p ++ y ∧ (skip ≤ String.length p)%nat.
Proof.
  induction p as [|b p IH]; intros skip s Hp.
  - simpl in Hp. subst skip. by exists s.
  - destruct s as [|b' t]; [done|]. destruct Hp as [<- Hp].
    destruct skip as [|k].
    + destruct Hp as [_ Hp]. apply IH in Hp as (y & -> & _).
      exists y. split; [done|]. simpl. lia.
    + apply IH in Hp as (y & -> & Hk). exists y. split; [done|]. simpl. lia.
Qed.

(** The runes of a field are the runes it had inside the string. *)
Lemma runes_fieldPrefix (p : string) :
  ∀ (skip : nat) (s : string),
    fieldPrefix f skip p s → Forall (λ r, f r = false) (runesFrom skip p).
Proof.
  induction p as [|b p IH]; intros skip s Hp; [constructor|].
  destruct s as [|b' t]; [done|]. destruct Hp as [<- Hp].
  cbn [runesFrom]. destruct skip as [|k].
  - destruct Hp as [Hf Hp].
    destruct (DecodeRuneInString (String b t)) as [r w] eqn:Hd.
    cbn [fst snd] in Hf, Hp.
    destruct (fieldPrefix_length _ _ _ Hp) as (y & -> & Hlen).
    rewrite (Decode_truncate b p y r w Hd Hlen).
    constructor; [done|]. by apply (IH (pred w) (p ++ y)).
  - by apply (IH k t).
Qed.

Lemma fieldsFrom_whole (s : string) :
  ∀ (skip : nat) (cur : option string),
    highPrefix skip s →
    (∀ c0 p, cur = Some c0 → fieldPrefix f skip p s →
       Forall (λ r, f r = false) (runes (c0 ++ p))) →
    Forall (λ c, Forall (λ r, f r = false) (runes c)) (fieldsFrom f skip cur s).
Proof.
  induction s as [|b t IH]; intros skip cur Hskip Hcur.
  - destruct skip; [|done]. destruct cur as [c0|]; simpl; [|done].
    constructor; [|done]. rewrite <- (append_empty_r c0). by apply Hcur.
  - cbn [fieldsFrom]. destruct skip as [|k].
    + destruct (DecodeRuneInString (String b t)) as [r w] eqn:Hd.
      pose proof Hd as [Hw _]%Decode_width.
      destruct (f r) eqn:Hr.
      * assert (Forall (λ c, Forall (λ r, f r = false) (runes c))
                  (fieldsFrom f (pred w) None t)) as Hrest.
        { apply IH; [done|]. by intros c0 p [=]. }
        destruct cur as [c0|]; simpl; [|done].
        constructor; [|done]. rewrite <- (append_empty_r c0). by apply Hcur.
      * apply IH; [done|]. intros c0' p [= <-] Hp.
        assert (fieldPrefix f 0 (String b p) (String b t)) as Hbp.
        { split; [done|]. rewrite Hd. by split. }
        destruct cur as [c0|]; simpl.
        -- rewrite append_assoc. by apply Hcur.
        -- by apply (runes_fieldPrefix _ 0 (String b t)).
    + destruct Hskip as [_ Hk]. apply IH; [done|].
      destruct cur as [c0|]; [|by intros c0 p [=]].
      intros c0' p [= <-] Hp. simpl. rewrite append_assoc.
      apply Hcur; [done|]. by split.
Qed.

Lemma extendField_grow (cur : option string) (b : ascii) (t : string) :
  extendField (growField cur b) t = extendField cur (String b t).
Proof.
  unfold extendField, growField.
  destruct (decide (t = "")) as [->|?]; destruct (decide (String b _ = ""));
    try done.
  simpl. by rewrite append_assoc.
Qed.

(** A stretch of runes that do not separate is read as one piece of a
    field, when the end of the string or an ASCII byte comes after it. *)
Lemma fieldsFrom_stretch (c q : string) :
  asciiHead q →
  ∀ (skip : nat) (cur : option string),
    highPrefix skip c → skip = 0 ∨ is_Some cur →
    Forall (λ r, f r = false) (runesFrom skip c) →
    fieldsFrom f skip cur (c ++ q) = fieldsFrom f 0 (extendField cur c) q.
Proof.
  intros Hq. induction c as [|b t IH]; intros skip cur Hskip Hstate Hc.
  - destruct skip; [|done]. rewrite append_empty_l.
    unfold extendField. by rewrite decide_True.
  - rewrite append_cons. cbn [fieldsFrom runesFrom] in *. destruct skip as [|k].
    + rewrite Decode_before by done.
      destruct (DecodeRuneInString (String b t)) as [r w] eqn:Hd.
      apply Decode_width in Hd as [Hw _].
      apply Forall_cons in Hc as [-> Hc].
      rewrite IH; [|done|by right|done].
      by rewrite extendField_grow.
    + destruct Hskip as [_ Hk]. destruct Hstate as [|[c0 ->]]; [done|].
      rewrite IH; [|done|by right|done].
      by rewrite extendField_grow.
Qed.

End Whole.

(** Components without a separating rune, joined by single spaces, are
    split into the components again. *)
Lemma FieldsFunc_Join_whole (cs : list string) :
  Forall (λ c, c ≠ "" ∧ Forall (λ r, isSeparator r = false) (runes c)) cs →
  FieldsFunc (Join cs " ") isSeparator = cs.
Proof.
  intros Hcs. unfold Join, FieldsFunc.
  induction Hcs as [|c cs [Hne Hc] Hcs IH]; [done|].
  destruct cs as [|c' cs].
  - cbn [String.concat]. rewrite <- (append_empty_r c) at 1.
    rewrite fieldsFrom_stretch; [|done|done|by left|done].
    unfold extendField. by rewrite decide_False.
  - change (String.concat " " (c :: c' :: cs))
      with (c ++ " " ++ String.concat " " (c' :: cs)).
    rewrite fieldsFrom_stretch; [|by vm_compute|done|by left|done].
    unfold extendField. rewrite decide_False by done.
    rewrite append_cons, append_empty_l. cbn [fieldsFrom].
    rewrite Decode_ascii by (by vm_compute).
    change (isSeparator (byteN " ")) with true. cbn [closeField pred].
    by rewrite append_empty_l, IH.
Qed.

Lemma upperByte_no_separator (b : ascii) :
  (byteN b < 128)%N → isSeparator (byteN b) = false →
  isSeparator (byteN (upperByte b)) = false.
Proof. destruct b as [[] [] [] [] [] [] [] []]; vm_compute; congruence. Qed.

Lemma upperByte_high (b : ascii) : (128 ≤ byteN b)%N → upperByte b = b.
Proof.
  destruct b as [[] [] [] [] [] [] [] []]; vm_compute; try reflexivity; intros H;
    by destruct H.
Qed.

Lemma labelComponent_whole (c : string) :
  c ≠ "" → Forall (λ r, isSeparator r = false) (runes c) →
  labelComponent c ≠ ""
  ∧ Forall (λ r, isSeparator r = false) (runes (labelComponent c)).
Proof.
  intros Hne Hc.
  destruct (decide (c ∈ acronymTable.*1)) as [Hin|Hout].
  - unfold acronymTable in Hin. simpl in Hin.
    rewrite !elem_of_cons, elem_of_nil in Hin.
    destruct_or!; try done; subst c; (split; [done|]);
      repeat constructor.
  - rewrite labelComponent_other by done.
    destruct c as [|b rest]; [done|]. split; [done|]. cbn [capitalizeFirst].
    destruct (decide (byteN b < 128)%N) as [Hb|Hb].
    + unfold runes in *. cbn [runesFrom] in *.
      rewrite Decode_ascii in Hc by done.
      assert (byteN (upperByte b) < 128)%N as Hup.
      { revert Hb. destruct b as [[] [] [] [] [] [] [] []]; vm_compute; congruence. }
      rewrite Decode_ascii by done.
      apply Forall_cons in Hc as [Hr Hc]. constructor; [|done].
      by apply upperByte_no_separator.
    + rewrite upperByte_high by lia. done.
Qed.

(** ** What a label is made of *)

(** The components of a label: not empty, without a separating rune and
    without an ASCII separator byte. *)
Lemma labels_whole (s : string) :
  Forall (λ c, c ≠ "" ∧ separatorless c ∧ separatorFree c)
    (map labelComponent (FieldsFunc s isSeparator)).
Proof.
  apply Forall_fmap.
  assert (Forall (λ c, Forall (λ r, isSeparator r = false) (runes c))
            (FieldsFunc s isSeparator)) as Hwhole.
  { apply fieldsFrom_whole; [done|]. by intros c0 p [=]. }
  pose proof (FieldsFunc_fields s) as Hfields.
  rewrite Forall_forall in Hwhole, Hfields. apply Forall_forall.
  intros c Hc. destruct (Hfields c Hc) as [Hne Hfree]. simpl.
  destruct (labelComponent_whole c Hne (Hwhole c Hc)) as [_ Hrunes].
  destruct (labelComponent_separatorFree c Hne Hfree) as [Hne' Hfree'].
  done.
Qed.

(** X1. A label is empty exactly when the field name has no rune besides
    separators. *)
Theorem fieldNameToLabel_empty_iff (s : string) :
  fieldNameToLabel s = "" ↔ Forall (λ r, isSeparator r = true) (runes s).
Proof.
  split.
  - unfold fieldNameToLabel. intros Hempty.
    apply Join_nonempty in Hempty.
    + apply fmap_nil_inv in Hempty. by apply fieldsFrom_nil in Hempty as [_ ?].
    + eapply Forall_impl; [apply labels_whole|]. by intros c [Hne _].
  - intros Hs. unfold fieldNameToLabel, FieldsFunc.
    by rewrite fieldsFrom_separators.
Qed.

(** X2. A label is a list of non-empty components joined by single
    spaces.  No component holds a separating rune, so splitting the
    label gives the components back; and none holds an ASCII separator,
    so no hyphen, underscore or period is left, and the only ASCII white
    space in a label is the space between two components. *)
Theorem fieldNameToLabel_separators_gone (s : string) :
  (∃ cs, fieldNameToLabel s = Join cs " "
         ∧ Forall (λ c, c ≠ "" ∧ separatorless c ∧ separatorFree c) cs
         ∧ FieldsFunc (fieldNameToLabel s) isSeparator = cs)
  ∧ Forall (λ b, separatorByte b → b = " "%char) (bytes (fieldNameToLabel s)).
Proof.
  pose proof (labels_whole s) as Hcs.
  split.
  - exists (map labelComponent (FieldsFunc s isSeparator)).
    split_and!; [done|done|].
    unfold fieldNameToLabel. apply FieldsFunc_Join_whole.
    eapply Forall_impl; [exact Hcs|]. by intros c (Hne & Hrunes & _).
  - unfold fieldNameToLabel. apply bytes_Join.
    + eapply Forall_impl; [exact Hcs|]. intros c (_ & _ & Hc).
      eapply Forall_impl; [exact Hc|]. by intros b Hb Hsep.
    + by repeat constructor.
Qed.

(** X3. Formatting a label again changes nothing, whatever the field
    name: a label is its own label. *)
Theorem fieldNameToLabel_fixed (s : string) :
  fieldNameToLabel (fieldNameToLabel s) = fieldNameToLabel s.
Proof.
  unfold fieldNameToLabel.
  rewrite FieldsFunc_Join_whole.
  - rewrite map_map. f_equal. apply map_ext. intros c. apply labelComponent_twice.
  - eapply Forall_impl; [apply labels_whole|]. by intros c (Hne & Hrunes & _).
Qed.

(** X4. ASCII separators in front of a field name and behind it do not
    show in the label, whatever the name is. *)
Theorem fieldNameToLabel_trim (p s q : string) :
  Forall separatorByte (bytes p) → Forall separatorByte (bytes q) →
  fieldNameToLabel (p ++ s ++ q) = fieldNameToLabel s.
Proof.
  intros Hp Hq. unfold fieldNameToLabel, FieldsFunc.
  by rewrite fieldsFrom_separator_run, fieldsFrom_trailing.
Qed.

Lemma fieldNameToLabel_trim_witness :
  Forall separatorByte (bytes "__") ∧ Forall separatorByte (bytes ". ")
  ∧ fieldNameToLabel ("__" ++ "instance-id" ++ ". ") = fieldNameToLabel "instance-id".
Proof.
  assert (Forall separatorByte (bytes "__")) as Hp
    by (repeat constructor; vm_compute; reflexivity).
  assert (Forall separatorByte (bytes ". ")) as Hq
    by (repeat constructor; vm_compute; reflexivity).
  split_and!; [exact Hp|exact Hq|].
  exact (fieldNameToLabel_trim "__" "instance-id" ". " Hp Hq).
Defined.

(** ** The length of a label *)

Lemma length_append (a b : string) :
  String.length (a ++ b) = (String.length a + String.length b)%nat.
Proof. induction a as [|x a IH]; [done|]. rewrite append_cons. simpl. by rewrite IH. Qed.

Lemma Join_length (cs : list string) :
  String.length (Join cs " ") = pred (spread cs).
Proof.
  unfold Join. induction cs as [|c cs IH]; [done|].
  destruct cs as [|c' cs]; [simpl; lia|].
  change (String.concat " " (c :: c' :: cs))
    with (c ++ " " ++ String.concat " " (c' :: cs)).
  rewrite !length_append, IH. simpl. lia.
Qed.

Lemma fieldsFrom_spread (f : rune → bool) (s : string) :
  ∀ (skip : nat) (cur : option string),
    (spread (fieldsFrom f skip cur s)
      ≤ from_option String.length 0 cur + String.length s + 1)%nat.
Proof.
  assert (∀ cur b, from_option String.length 0 (growField cur b)
                   = S (from_option String.length 0 cur)) as Hgrow.
  { intros cur b. unfold growField. simpl. rewrite length_append. simpl.
    destruct cur; simpl; lia. }
  induction s as [|b t IH]; intros skip cur.
  - destruct cur; simpl; lia.
  - cbn [fieldsFrom]. destruct skip as [|k].
    + destruct (DecodeRuneInString (String b t)) as [r w].
      destruct (f r).
      * pose proof (IH (pred w) None) as Hrest.
        destruct cur as [c|]; simpl in *; lia.
      * pose proof (IH (pred w) (growField cur b)) as Hrest.
        rewrite Hgrow in Hrest. simpl. lia.
    + destruct cur as [c|].
      * pose proof (IH k (growField (Some c) b)) as Hrest.
        rewrite Hgrow in Hrest. simpl in *. lia.
      * pose proof (IH k None) as Hrest. simpl in *. lia.
Qed.

Lemma labelComponent_length (c : string) :
  String.length (labelComponent c) = String.length c.
Proof.
  destruct (decide (c ∈ acronymTable.*1)) as [Hin|Hout].
  - unfold acronymTable in Hin. simpl in Hin.
    rewrite !elem_of_cons, elem_of_nil in Hin.
    destruct_or!; try done; subst c; reflexivity.
  - rewrite labelComponent_other by done. by destruct c.
Qed.

Lemma spread_labels (cs : list string) :
  spread (map labelComponent cs) = spread cs.
Proof.
  induction cs as [|c cs IH]; [done|]. simpl. by rewrite labelComponent_length, IH.
Qed.

(** X5. A label is never longer than the field name it was made from. *)
Theorem fieldNameToLabel_length (s : string) :
  (String.length (fieldNameToLabel s) ≤ String.length s)%nat.
Proof.
  unfold fieldNameToLabel. rewrite Join_length, spread_labels.
  pose proof (fieldsFrom_spread isSeparator s 0 None) as Hs.
  unfold FieldsFunc. simpl in Hs. lia.
Qed.

(** ** The keys of a fragment *)

Section FragmentKeys.
Context `{RT : GoRuntime}.

Lemma ToSchema_is_Some (bv : BrokerVariable) (k : string) :
  is_Some (ToSchema bv !! k) ↔
    is_Some (Constraints bv !! k)
    ∨ (k = KeyTitle ∧ FieldName bv ≠ "")
    ∨ (k = KeyEnum ∧ 0 < size (Enum bv))
    ∨ (k = KeyDescription ∧ Details bv ≠ "")
    ∨ (k = KeyType ∧ Type_ bv ≠ "")
    ∨ (k = KeyDefault ∧ Default bv ≠ VNil).
Proof.
  rewrite ToSchema_lookup, <- notNil_true.
  repeat case_decide; try (destruct (Constraints bv !! k) eqn:Hc);
    rewrite ?is_Some_alt; try case_decide; naive_solver.
Qed.

(** X6. A fragment has every key of Constraints, and besides these only
    keys among the five [ToSchema] writes itself; it is empty exactly for
    a descriptor that has no name, no constraint, no Enum entry, no
    details, no type and no default. *)
Theorem ToSchema_keys (bv : BrokerVariable) :
  dom (Constraints bv) ⊆ dom (ToSchema bv)
  ∧ dom (ToSchema bv) ⊆ dom (Constraints bv) ∪ list_to_set generatedKeys
  ∧ (ToSchema bv = ∅ ↔
       FieldName bv = "" ∧ Constraints bv = ∅ ∧ Enum bv = ∅
       ∧ Details bv = "" ∧ Type_ bv = "" ∧ Default bv = VNil).
Proof.
  split_and!.
  - intros k. rewrite !elem_of_dom, ToSchema_is_Some. tauto.
  - intros k. rewrite elem_of_union, !elem_of_dom, ToSchema_is_Some.
    unfold generatedKeys. rewrite !elem_of_list_to_set, !elem_of_cons.
    naive_solver.
  - split.
    + intros Hempty.
      assert (∀ k, ¬ is_Some (ToSchema bv !! k)) as Hnone.
      { intros k. rewrite Hempty, lookup_empty. by intros [? ?]. }
      assert (∀ k, ¬ (is_Some (Constraints bv !! k)
                ∨ (k = KeyTitle ∧ FieldName bv ≠ "")
                ∨ (k = KeyEnum ∧ 0 < size (Enum bv))
                ∨ (k = KeyDescription ∧ Details bv ≠ "")
                ∨ (k = KeyType ∧ Type_ bv ≠ "")
                ∨ (k = KeyDefault ∧ Default bv ≠ VNil))) as Hk.
      { intros k. rewrite <- ToSchema_is_Some. apply Hnone. }
      split_and!.
      * destruct (decide (FieldName bv = "")); [done|]. destruct (Hk KeyTitle). tauto.
      * apply map_empty. intros k. apply eq_None_not_Some. intros ?.
        destruct (Hk k). tauto.
      * apply map_size_empty_iff.
        destruct (decide (0 < size (Enum bv))); [|lia]. destruct (Hk KeyEnum). tauto.
      * destruct (decide (Details bv = "")); [done|].
        destruct (Hk KeyDescription). tauto.
      * destruct (decide (Type_ bv = "")); [done|]. destruct (Hk KeyType). tauto.
      * destruct (notNil (Default bv)) eqn:Hnn; [|by destruct (Default bv)].
        apply notNil_true in Hnn. destruct (Hk KeyDefault). tauto.
    + intros (Hn & Hc & He & Hd & Ht & Hv).
      apply map_empty. intros k. apply eq_None_not_Some.
      rewrite ToSchema_is_Some, Hn, Hc, He, Hd, Ht, Hv, lookup_empty, map_size_empty.
      intros [[? [=]]|H]; destruct_or!; destruct H as [_ H]; by try lia.
Qed.

End FragmentKeys.

(** ** The order of the enum list *)

Lemma swapTie_changes {A : Type} (less : A → A → bool) (y : list A) :
  (∀ a b c, less a b = false → less b c = false → less a c = false) →
  StronglySorted (inOrder less) y → NoDup y →
  ∀ a b, a ∈ y → b ∈ y → a ≠ b → less a b = false → less b a = false →
    swapTie less y ≠ y.
Proof.
  intros Hneg. induction y as [|x t IH]; intros Hs Hnd a b Ha Hb Hab Hlab Hlba.
  { by apply elem_of_nil in Ha. }
  destruct t as [|z t'].
  { apply list_elem_of_singleton in Ha, Hb. congruence. }
  change (swapTie less (x :: z :: t'))
    with (if less x z then x :: swapTie less (z :: t') else z :: x :: t').
  apply StronglySorted_inv in Hs as [Ht Hx].
  apply NoDup_cons in Hnd as [Hxt Hnd].
  destruct (less x z) eqn:Hxz.
  - intros [= Heq]. revert Heq.
    assert (∀ c, c ∈ z :: t' → less x c = false → False) as Hfirst.
    { intros c Hc Hxc. apply elem_of_cons in Hc as [->|Hc]; [congruence|].
      apply StronglySorted_inv in Ht as [_ Hz].
      rewrite Forall_forall in Hz. specialize (Hz c Hc). unfold inOrder in Hz.
      rewrite (Hneg x c z Hxc Hz) in Hxz. done. }
    apply elem_of_cons in Ha as [->|Ha]; apply elem_of_cons in Hb as [->|Hb].
    + done.
    + destruct (Hfirst b Hb Hlab).
    + destruct (Hfirst a Ha Hlba).
    + by apply (IH Ht Hnd a b).
  - intros [= -> _]. apply Hxt. by left.
Qed.

Lemma string_ltb_tie (a b : string) :
  String.ltb a b = false → String.ltb b a = false → a = b.
Proof.
  intros H1%ltb_leb_false H2%ltb_leb_false. by apply String.leb_antisym.
Qed.

#[global] Instance valueOfKey_inj : Inj (=) (=) valueOfKey.
Proof. intros [] [] [=]; by subst. Qed.

(** When no two keys of Enum print alike, the sorted list of the keys is
    the same whatever the runtime, and whatever the friendly names. *)
Lemma enumeration_unique (RT1 RT2 : GoRuntime) (bv bv' : BrokerVariable) :
  dom (Enum bv) = dom (Enum bv') →
  (∀ k1 k2, is_Some (Enum bv !! k1) → is_Some (Enum bv !! k2) →
     Sprintv k1 = Sprintv k2 → k1 = k2) →
  enumeration (RT := RT1) bv = enumeration (RT := RT2) bv'.
Proof.
  intros Hdom Hinj.
  assert (∀ (RT : GoRuntime) k, k ∈ enumeration (RT := RT) bv ↔ is_Some (Enum bv !! k))
    as Hin.
  { intros RT k. by rewrite enumeration_keys, elem_of_keys. }
  assert (∀ (RT : GoRuntime) k, k ∈ enumeration (RT := RT) bv' ↔ is_Some (Enum bv !! k))
    as Hin'.
  { intros RT k. by rewrite enumeration_keys, elem_of_keys, <- !elem_of_dom, Hdom. }
  apply (StronglySorted_unique_strong sprintLe).
  - intros k1 k2 H1%Hin H2%Hin' H12 H21. apply Hinj; [done..|].
    by apply String.leb_antisym.
  - apply enumeration_sorted.
  - apply enumeration_sorted.
  - apply NoDup_Permutation.
    + rewrite enumeration_keys. apply NoDup_fst_map_to_list.
    + rewrite enumeration_keys. apply NoDup_fst_map_to_list.
    + intros k. by rewrite Hin, Hin'.
Qed.

Lemma ToSchema_enumeration (RT1 RT2 : GoRuntime) (bv bv' : BrokerVariable) :
  FieldName bv = FieldName bv' → Type_ bv = Type_ bv' → Details bv = Details bv' →
  Default bv = Default bv' → Constraints bv = Constraints bv' →
  size (Enum bv) = size (Enum bv') →
  enumeration (RT := RT1) bv = enumeration (RT := RT2) bv' →
  ToSchema (RT := RT1) bv = ToSchema (RT := RT2) bv'.
Proof.
  intros Hn Ht Hd Hv Hc Hs He. apply map_eq. intros k.
  rewrite (ToSchema_lookup (RT := RT1)), (ToSchema_lookup (RT := RT2)).
  by rewrite Hn, Ht, Hd, Hv, Hc, Hs, He.
Qed.

(** X7. The fragment of a descriptor is the same under every runtime,
    that is, whatever the order in which the maps are visited and however
    [sort.Slice] places elements that compare alike, exactly when no two
    keys of Enum have the same string form. *)
Theorem ToSchema_reproducible (bv : BrokerVariable) :
  (∀ RT1 RT2 : GoRuntime, ToSchema (RT := RT1) bv = ToSchema (RT := RT2) bv)
  ↔ (∀ k1 k2, is_Some (Enum bv !! k1) → is_Some (Enum bv !! k2) →
       Sprintv k1 = Sprintv k2 → k1 = k2).
Proof.
  split.
  - intros Hall k1 k2 H1 H2 Hsame.
    destruct (decide (k1 = k2)) as [|Hne]; [done|exfalso].
    assert (0 < size (Enum bv)) as Hsize.
    { destruct H1 as [x H1]. destruct (decide (0 < size (Enum bv))); [done|].
      assert (Enum bv = ∅) as Hempty by (apply map_size_empty_iff; lia).
      by rewrite Hempty in H1. }
    pose proof (Hall refRuntime tieRuntime) as Heq.
    apply (f_equal (λ m, m !! KeyEnum)) in Heq. cbv beta in Heq.
    rewrite (ToSchema_lookup (RT := refRuntime)),
      (ToSchema_lookup (RT := tieRuntime)) in Heq.
    repeat (case_decide; [naive_solver|]).
    case_decide; [|naive_solver].
    injection Heq as Heq. apply (inj (fmap valueOfKey)) in Heq.
    symmetry in Heq. revert Heq.
    change (enumeration (RT := tieRuntime) bv)
      with (swapTie enumLess (enumeration (RT := refRuntime) bv)).
    set (y := enumeration (RT := refRuntime) bv).
    assert (∀ k, is_Some (Enum bv !! k) → k ∈ y) as Hin.
    { intros k Hk. unfold y. by rewrite enumeration_keys, elem_of_keys. }
    apply (swapTie_changes enumLess y) with (a := k1) (b := k2); try done.
    + intros a b c. apply string_ltb_negtrans.
    + apply (sortSlice_sorted (GoRuntime := refRuntime)).
      * intros a. apply string_ltb_irrefl.
      * intros a b c. apply string_ltb_trans.
      * intros a b c. apply string_ltb_negtrans.
    + unfold y. rewrite enumeration_keys. apply NoDup_fst_map_to_list.
    + by apply Hin.
    + by apply Hin.
    + unfold enumLess. rewrite Hsame. apply string_ltb_irrefl.
    + unfold enumLess. rewrite Hsame. apply string_ltb_irrefl.
  - intros Hinj RT1 RT2. apply ToSchema_enumeration; try done.
    by apply enumeration_unique.
Qed.

(** X8. The friendly names of Enum are in no fragment: two descriptors
    that differ in them only have the same fragment, when no two keys
    print alike. *)
Theorem ToSchema_friendly_names (RT : GoRuntime) (bv bv' : BrokerVariable) :
  FieldName bv = FieldName bv' → Type_ bv = Type_ bv' → Details bv = Details bv' →
  Default bv = Default bv' → Constraints bv = Constraints bv' →
  dom (Enum bv) = dom (Enum bv') →
  (∀ k1 k2, is_Some (Enum bv !! k1) → is_Some (Enum bv !! k2) →
     Sprintv k1 = Sprintv k2 → k1 = k2) →
  ToSchema bv = ToSchema bv'.
Proof.
  intros Hn Ht Hd Hv Hc Hdom Hinj. apply ToSchema_enumeration; try done.
  - by rewrite <- !size_dom, Hdom.
  - by apply enumeration_unique.
Qed.

Lemma ToSchema_friendly_names_witness :
  FieldName sizes = FieldName sizesTerse ∧ Type_ sizes = Type_ sizesTerse
  ∧ Details sizes = Details sizesTerse ∧ Default sizes = Default sizesTerse
  ∧ Constraints sizes = Constraints sizesTerse
  ∧ dom (Enum sizes) = dom (Enum sizesTerse)
  ∧ (∀ k1 k2, is_Some (Enum sizes !! k1) → is_Some (Enum sizes !! k2) →
       Sprintv k1 = Sprintv k2 → k1 = k2)
  ∧ ToSchema (RT := refRuntime) sizes = ToSchema (RT := refRuntime) sizesTerse.
Proof.
  assert (dom (Enum sizes) = dom (Enum sizesTerse)) as Hdom.
  { unfold sizes, sizesTerse. cbn [Enum].
    by rewrite !dom_insert_L, !dom_singleton_L. }
  assert (∀ k1 k2, is_Some (Enum sizes !! k1) → is_Some (Enum sizes !! k2) →
            Sprintv k1 = Sprintv k2 → k1 = k2) as Hinj.
  { intros k1 k2. rewrite <- !elem_of_dom. unfold sizes. cbn [Enum].
    rewrite !dom_insert_L, !dom_singleton_L, !elem_of_union, !elem_of_singleton.
    intros H1 H2. destruct_or!; subst k1 k2; try reflexivity;
      vm_compute; intros [=]. }
  split_and!; [reflexivity..|exact Hdom|exact Hinj|].
  exact (ToSchema_friendly_names refRuntime sizes sizesTerse
           eq_refl eq_refl eq_refl eq_refl eq_refl Hdom Hinj).
Defined.

(** ** Descriptors in another order *)

Lemma named_once (vs : list BrokerVariable) (v w : BrokerVariable) :
  NoDup (FieldName <$> vs) → v ∈ vs → w ∈ vs → FieldName v = FieldName w → v = w.
Proof.
  induction vs as [|x vs IH]; [by intros _ ?%elem_of_nil|].
  rewrite fmap_cons, NoDup_cons.
  intros [Hx Hnd] [->|Hv]%elem_of_cons [->|Hw]%elem_of_cons Hname; [done| | |by apply IH].
  - destruct Hx. rewrite Hname. by apply list_elem_of_fmap_2.
  - destruct Hx. rewrite <- Hname. by apply list_elem_of_fmap_2.
Qed.

(** Among descriptors of distinct names, those of one name are the same
    list in whatever order the descriptors come. *)
Lemma filter_named_perm (P : BrokerVariable → Prop) `{∀ v, Decision (P v)}
    (name : string) (vs vs' : list BrokerVariable) :
  (∀ v, P v → FieldName v = name) →
  NoDup (FieldName <$> vs) → vs ≡ₚ vs' → filter P vs = filter P vs'.
Proof.
  intros HP Hnd Hperm.
  assert (filter P vs ≡ₚ filter P vs') as Hf by by rewrite Hperm.
  destruct (filter P vs) as [|a [|b l]] eqn:Hvs.
  - by apply Permutation_nil_l in Hf.
  - by apply Permutation_singleton_l in Hf.
  - exfalso.
    assert (NoDup (a :: b :: l)) as Hnd'.
    { rewrite <- Hvs. apply NoDup_filter. by apply NoDup_fmap_1 in Hnd. }
    assert (a ∈ filter P vs ∧ b ∈ filter P vs) as [Ha Hb].
    { rewrite Hvs. split; [by left|by right; left]. }
    apply list_elem_of_filter in Ha as [Ha Hain], Hb as [Hb Hbin].
    assert (a = b) as ->.
    { apply (named_once vs); [done..|]. by rewrite (HP a), (HP b). }
    apply NoDup_cons in Hnd' as [Hab _]. apply Hab. by left.
Qed.

Section Orders.
Context `{RT : GoRuntime}.

Lemma propertiesOf_perm (vs vs' : list BrokerVariable) :
  NoDup (FieldName <$> vs) → vs ≡ₚ vs' → propertiesOf vs = propertiesOf vs'.
Proof.
  intros Hnd Hperm. apply map_eq. intros name.
  rewrite !propertiesOf_lookup. unfold lastNamed.
  by rewrite (filter_named_perm _ name vs vs').
Qed.

(** X9. For descriptors of pairwise distinct names the order of the list
    is immaterial: a permutation has the same document, and payloads are
    validated alike. *)
Theorem CreateJsonSchema_permutation (vs vs' : list BrokerVariable) :
  NoDup (FieldName <$> vs) → vs ≡ₚ vs' →
  CreateJsonSchema vs = CreateJsonSchema vs'
  ∧ ∀ (CO : Collaborators) (parameters : gmap string Value),
      ValidateVariables parameters vs = ValidateVariables parameters vs'.
Proof.
  intros Hnd Hperm.
  assert (CreateJsonSchema vs = CreateJsonSchema vs') as Heq.
  { rewrite !CreateJsonSchema_unfold. cbn zeta.
    by rewrite (propertiesOf_perm vs vs'), (requiredNames_perm vs vs'). }
  split; [done|]. intros CO parameters. unfold ValidateVariables. by rewrite Heq.
Qed.

(** X10. The document of two lists of descriptors put one after the
    other: the properties of the second list, then those of the first
    for the names the second has not; a name is required when either
    list requires it. *)
Theorem CreateJsonSchema_app (vs ws : list BrokerVariable) :
  propertiesOf (vs ++ ws) = propertiesOf ws ∪ propertiesOf vs
  ∧ requiredNames (vs ++ ws) = requiredNames vs ∪ requiredNames ws
  ∧ CreateJsonSchema (vs ++ ws) !! "properties"
      = Some (VMap (propertiesOf ws ∪ propertiesOf vs))
  ∧ (is_Some (CreateJsonSchema (vs ++ ws) !! "required") ↔
       is_Some (CreateJsonSchema vs !! "required")
       ∨ is_Some (CreateJsonSchema ws !! "required")).
Proof.
  assert (propertiesOf (vs ++ ws) = propertiesOf ws ∪ propertiesOf vs) as Hp.
  { apply map_eq. intros name.
    rewrite lookup_union, !propertiesOf_lookup. unfold lastNamed.
    rewrite filter_app, last_app.
    destruct (last (filter _ ws)), (last (filter _ vs)); done. }
  assert (requiredNames (vs ++ ws) = requiredNames vs ∪ requiredNames ws) as Hr.
  { unfold requiredNames. by rewrite filter_app, fmap_app, list_to_set_app_L. }
  split_and!; [done|done| |].
  - by rewrite CreateJsonSchema_properties, Hp.
  - rewrite !CreateJsonSchema_required, Hr.
    repeat case_decide; rewrite ?is_Some_alt; try tauto; set_solver.
Qed.

(** X11. Every name of the required list is a property of the document. *)
Theorem CreateJsonSchema_required_declared (vs : list BrokerVariable)
    (names : list string) :
  CreateJsonSchema vs !! "required" = Some (VStrings names) →
  names ≠ []
  ∧ ∀ n, n ∈ names →
      ∃ v, lastNamed n vs = Some v
           ∧ propertiesOf vs !! n = Some (VMap (ToSchema v)).
Proof.
  rewrite CreateJsonSchema_required. case_decide as Hempty; [done|].
  intros [= <-]. split.
  - intros Hnil%elements_empty_inv. apply Hempty. by apply leibniz_equiv.
  - intros n Hn%elem_of_elements.
    apply elem_of_requiredNames in Hn as (w & Hw & _ & Hname).
    destruct (lastNamed n vs) as [v|] eqn:Hlast.
    + exists v. split; [done|]. by rewrite propertiesOf_lookup, Hlast.
    + assert (is_Some (lastNamed n vs)) as [? ?]; [|congruence].
      apply lastNamed_is_Some. eauto.
Qed.

End Orders.

Lemma CreateJsonSchema_permutation_witness :
  let vs := [sizes; enumInConstraints] in
  let vs' := [enumInConstraints; sizes] in
  NoDup (FieldName <$> vs) ∧ vs ≡ₚ vs'
  ∧ CreateJsonSchema (RT := refRuntime) vs = CreateJsonSchema (RT := refRuntime) vs'
  ∧ ∀ (CO : Collaborators) (parameters : gmap string Value),
      ValidateVariables (RT := refRuntime) parameters vs
        = ValidateVariables (RT := refRuntime) parameters vs'.
Proof.
  intros vs vs'.
  assert (NoDup (FieldName <$> vs)) as Hnd.
  { apply (bool_decide_unpack _). vm_compute. reflexivity. }
  assert (vs ≡ₚ vs') as Hperm by apply perm_swap.
  split_and!; [exact Hnd|exact Hperm|..];
    apply (CreateJsonSchema_permutation (RT := refRuntime) vs vs' Hnd Hperm).
Defined.

Lemma CreateJsonSchema_required_declared_witness :
  CreateJsonSchema (RT := refRuntime) [sizeFirst] !! "required" = Some (VStrings ["size"])
  ∧ ["size"] ≠ []
  ∧ ∀ n, n ∈ ["size"] →
      ∃ v, lastNamed n [sizeFirst] = Some v
           ∧ propertiesOf (RT := refRuntime) [sizeFirst] !! n
               = Some (VMap (ToSchema (RT := refRuntime) v)).
Proof.
  assert (CreateJsonSchema (RT := refRuntime) [sizeFirst] !! "required"
          = Some (VStrings ["size"])) as Hreq by (vm_compute; reflexivity).
  split; [exact Hreq|].
  exact (CreateJsonSchema_required_declared (RT := refRuntime) [sizeFirst] ["size"] Hreq).
Defined.

(** ** Defaults *)

Lemma firstDefault_is_Some (k : string) (vs : list BrokerVariable) :
  is_Some (firstDefault k vs) ↔ ∃ v, v ∈ vs ∧ FieldName v = k ∧ Default v ≠ VNil.
Proof.
  unfold firstDefault. rewrite head_is_Some. split.
  - intros Hne. destruct (filter _ vs) as [|v l] eqn:Hf; [done|].
    assert (v ∈ filter (λ v, FieldName v = k ∧ notNil (Default v) = true) vs) as Hv
      by (rewrite Hf; by left).
    apply list_elem_of_filter in Hv as [[Hname Hd] Hv].
    exists v. by rewrite <- notNil_true.
  - intros (v & Hv & Hname & Hd) Hnil.
    assert (v ∈ filter (λ v, FieldName v = k ∧ notNil (Default v) = true) vs) as Hin.
    { apply list_elem_of_filter. by rewrite notNil_true. }
    rewrite Hnil in Hin. by apply elem_of_nil in Hin.
Qed.

Lemma firstDefault_Some (k : string) (vs : list BrokerVariable) (v : BrokerVariable) :
  firstDefault k vs = Some v → v ∈ vs ∧ FieldName v = k ∧ Default v ≠ VNil.
Proof.
  unfold firstDefault. intros Hv%head_Some_elem_of.
  apply list_elem_of_filter in Hv as [[Hname Hd] Hv]. by rewrite <- notNil_true.
Qed.

(** X12. What [ApplyDefaults] leaves in the payload is the payload as it
    was, united with the defaults an empty payload would get: the names
    with a default that is not nil, no other, and never nil for a value. *)
Theorem ApplyDefaults_union (parameters : gmap string Value)
    (variables : list BrokerVariable) :
  ApplyDefaults parameters variables = parameters ∪ ApplyDefaults ∅ variables
  ∧ parameters ⊆ ApplyDefaults parameters variables
  ∧ (∀ k, is_Some (ApplyDefaults ∅ variables !! k) ↔
       ∃ v, v ∈ variables ∧ FieldName v = k ∧ Default v ≠ VNil)
  ∧ (∀ k, ApplyDefaults ∅ variables !! k ≠ Some VNil)
  ∧ (∀ pre post,
       variables = (pre ++ post)%list →
       ApplyDefaults parameters variables
         = ApplyDefaults (ApplyDefaults parameters pre) post).
Proof.
  assert (ApplyDefaults parameters variables = parameters ∪ ApplyDefaults ∅ variables)
    as Hunion.
  { apply map_eq. intros k.
    rewrite lookup_union, !ApplyDefaults_lookup, lookup_empty.
    destruct (parameters !! k), (firstDefault k variables); done. }
  split_and!.
  - done.
  - rewrite Hunion. apply map_union_subseteq_l.
  - intros k. rewrite ApplyDefaults_lookup, lookup_empty, <- firstDefault_is_Some.
    by rewrite fmap_is_Some.
  - intros k. rewrite ApplyDefaults_lookup, lookup_empty.
    destruct (firstDefault k variables) as [v|] eqn:Hv; [|done].
    apply firstDefault_Some in Hv as (_ & _ & Hd). simpl. congruence.
  - intros pre post ->. apply ApplyDefaults_app.
Qed.

(** X13. For descriptors of pairwise distinct names [ApplyDefaults] does
    the same in whatever order they come. *)
Theorem ApplyDefaults_permutation (parameters : gmap string Value)
    (vs vs' : list BrokerVariable) :
  NoDup (FieldName <$> vs) → vs ≡ₚ vs' →
  ApplyDefaults parameters vs = ApplyDefaults parameters vs'.
Proof.
  intros Hnd Hperm. apply map_eq. intros k. rewrite !ApplyDefaults_lookup.
  unfold firstDefault. rewrite (filter_named_perm _ k vs vs'); try done.
  by intros v [? _].
Qed.

Lemma ApplyDefaults_permutation_witness :
  let vs := [sizes; sizeDefault] in
  let vs' := [sizeDefault; sizes] in
  NoDup (FieldName <$> vs) ∧ vs ≡ₚ vs'
  ∧ ApplyDefaults {[ "disk_gb" := VInt 5 ]} vs = ApplyDefaults {[ "disk_gb" := VInt 5 ]} vs'.
Proof.
  intros vs vs'.
  assert (NoDup (FieldName <$> vs)) as Hnd.
  { apply (bool_decide_unpack _). vm_compute. reflexivity. }
  assert (vs ≡ₚ vs') as Hperm by apply perm_swap.
  split_and!; [exact Hnd|exact Hperm|].
  exact (ApplyDefaults_permutation {[ "disk_gb" := VInt 5 ]} vs vs' Hnd Hperm).
Defined.

(** X14. With descriptors of pairwise distinct names, a value that
    [ApplyDefaults] fills in is the default the document shows for that
    property. *)
Theorem ApplyDefaults_documented `{RT : GoRuntime} (parameters : gmap string Value)
    (vs : list BrokerVariable) (n : string) (d : Value) :
  NoDup (FieldName <$> vs) →
  parameters !! n = None → ApplyDefaults parameters vs !! n = Some d →
  ∃ fragment,
    propertiesOf vs !! n = Some (VMap fragment) ∧ fragment !! KeyDefault = Some d.
Proof.
  intros Hnd Hnone. rewrite ApplyDefaults_lookup, Hnone.
  destruct (firstDefault n vs) as [v|] eqn:Hv; [|done].
  intros [= <-]. apply firstDefault_Some in Hv as (Hin & <- & Hd).
  exists (ToSchema v). split.
  - by rewrite propertiesOf_lookup, (lastNamed_NoDup vs v).
  - rewrite ToSchema_lookup. apply notNil_true in Hd.
    by rewrite decide_True.
Qed.

Lemma ApplyDefaults_documented_witness :
  NoDup (FieldName <$> [sizes; sizeDefault])
  ∧ (∅ : gmap string Value) !! "size" = None
  ∧ ApplyDefaults ∅ [sizes; sizeDefault] !! "size" = Some (VInt 10)
  ∧ ∃ fragment,
      propertiesOf (RT := refRuntime) [sizes; sizeDefault] !! "size" = Some (VMap fragment)
      ∧ fragment !! KeyDefault = Some (VInt 10).
Proof.
  assert (NoDup (FieldName <$> [sizes; sizeDefault])) as Hnd.
  { apply (bool_decide_unpack _). vm_compute. reflexivity. }
  assert (ApplyDefaults ∅ [sizes; sizeDefault] !! "size" = Some (VInt 10)) as Hd
    by (vm_compute; reflexivity).
  split_and!; [exact Hnd|reflexivity|exact Hd|].
  exact (ApplyDefaults_documented (RT := refRuntime) ∅ [sizes; sizeDefault] "size"
           (VInt 10) Hnd eq_refl Hd).
Defined.

(** ** Two documents in the store *)

(** X15. Each call of [CreateJsonSchema] builds its document from maps of
    its own.  Of two calls one after the other, on the same descriptors,
    both return the document of these descriptors; the two documents,
    their two maps of properties and the fragments of each name are at
    different addresses, and the second call leaves the first document as
    it was. *)
Theorem Store_CreateJsonSchema_twice `{RT : GoRuntime} (h : Store.heap)
    (ds : list Store.Descriptor) (vs : list BrokerVariable) :
  Forall2 (λ d v, content h d = Some v) ds vs →
  ∃ schema1 properties1 props1 h1 schema2 properties2 props2 h2,
    Store.CreateJsonSchema ds h = Some (schema1, h1)
    ∧ Store.CreateJsonSchema ds h1 = Some (schema2, h2)
    ∧ h2 !! schema1
        = Some (Store.OMap (<["properties" := VRef properties1]> (CreateJsonSchema vs)))
    ∧ h2 !! schema2
        = Some (Store.OMap (<["properties" := VRef properties2]> (CreateJsonSchema vs)))
    ∧ h2 !! properties1 = Some (Store.OMap props1)
    ∧ h2 !! properties2 = Some (Store.OMap props2)
    ∧ schema1 ≠ schema2 ∧ properties1 ≠ properties2
    ∧ (∀ l, l ∈ dom h1 → h2 !! l = h1 !! l)
    ∧ (∀ name v, lastNamed name vs = Some v →
         ∃ fragment1 fragment2,
           props1 !! name = Some (VRef fragment1)
           ∧ props2 !! name = Some (VRef fragment2)
           ∧ fragment1 ≠ fragment2
           ∧ h2 !! fragment1 = Some (Store.OMap (ToSchema v))
           ∧ h2 !! fragment2 = Some (Store.OMap (ToSchema v))).
Proof.
  intros Hds.
  destruct (CreateJsonSchema_run h ds vs Hds)
    as (schema1 & properties1 & props1 & h1 & Hrun1 & _ & _ & _
        & Hs1 & Hp1 & Hsame1 & Hfr1).
  assert (h ⊆ h1) as Hsub.
  { apply map_subseteq_spec. intros l o Hl. rewrite Hsame1; [done|].
    apply elem_of_dom. eauto. }
  assert (Forall2 (λ d v, content h1 d = Some v) ds vs) as Hds1.
  { eapply Forall2_impl; [exact Hds|]. intros d v. by apply content_mono. }
  destruct (CreateJsonSchema_run h1 ds vs Hds1)
    as (schema2 & properties2 & props2 & h2 & Hrun2 & Hs2new & Hp2new & _
        & Hs2 & Hp2 & Hsame2 & Hfr2).
  assert (schema1 ∈ dom h1) as Hs1in by (apply elem_of_dom; eauto).
  assert (properties1 ∈ dom h1) as Hp1in by (apply elem_of_dom; eauto).
  exists schema1, properties1, props1, h1, schema2, properties2, props2, h2.
  split_and!; try done.
  - by rewrite Hsame2.
  - by rewrite Hsame2.
  - by intros ->.
  - by intros ->.
  - intros name v Hv. specialize (Hfr1 name). specialize (Hfr2 name).
    rewrite Hv in Hfr1, Hfr2.
    destruct Hfr1 as (fragment1 & Hn1 & _ & Hf1).
    destruct Hfr2 as (fragment2 & Hn2 & Hnew2 & Hf2).
    assert (fragment1 ∈ dom h1) as Hf1in by (apply elem_of_dom; eauto).
    exists fragment1, fragment2. split_and!; try done.
    + by intros ->.
    + by rewrite Hsame2.
Qed.

Lemma Store_CreateJsonSchema_twice_witness :
  let ds := [sizeAt 2%positive 3%positive] in
  let vs := [pureOf (sizeAt 2%positive 3%positive) ∅ {[ "minimum" := VInt 1 ]}] in
  Forall2 (λ d v, content sampleStore d = Some v) ds vs
  ∧ ∃ schema1 properties1 props1 h1 schema2 properties2 props2 h2,
    Store.CreateJsonSchema (RT := refRuntime) ds sampleStore = Some (schema1, h1)
    ∧ Store.CreateJsonSchema (RT := refRuntime) ds h1 = Some (schema2, h2)
    ∧ h2 !! schema1
        = Some (Store.OMap (<["properties" := VRef properties1]>
                  (CreateJsonSchema (RT := refRuntime) vs)))
    ∧ h2 !! schema2
        = Some (Store.OMap (<["properties" := VRef properties2]>
                  (CreateJsonSchema (RT := refRuntime) vs)))
    ∧ h2 !! properties1 = Some (Store.OMap props1)
    ∧ h2 !! properties2 = Some (Store.OMap props2)
    ∧ schema1 ≠ schema2 ∧ properties1 ≠ properties2
    ∧ (∀ l, l ∈ dom h1 → h2 !! l = h1 !! l)
    ∧ (∀ name v, lastNamed name vs = Some v →
         ∃ fragment1 fragment2,
           props1 !! name = Some (VRef fragment1)
           ∧ props2 !! name = Some (VRef fragment2)
           ∧ fragment1 ≠ fragment2
           ∧ h2 !! fragment1 = Some (Store.OMap (ToSchema (RT := refRuntime) v))
           ∧ h2 !! fragment2 = Some (Store.OMap (ToSchema (RT := refRuntime) v))).
Proof.
  intros ds vs.
  assert (Forall2 (λ d v, content sampleStore d = Some v) ds vs) as Hds.
  { repeat constructor. }
  split; [exact Hds|].
  exact (Store_CreateJsonSchema_twice (RT := refRuntime) sampleStore ds vs Hds).
Defined.


